(** * mafredo.rao: amplitude / phase response grids

    A shallow embedding of [src/mafredo/rao.py].  A [Rao] object owns an
    xarray [Dataset] with two coordinates, [wave_direction] (degrees) and
    [omega] (rad/s), and the data variables [amplitude] and [phase], both
    indexed [[iDirection, iOmega]].

    Numbers.  float64 arithmetic is idealised: a number is a real of
    [Stdlib.Reals], and the one non-number the code can produce, the NaN
    that [interp] writes for a target outside the source axis, is [None]
    in a [cell].  Rounding is not modelled, except in [Binary64], which
    computes the mirror of a heading as the program does.  The dtype of
    the amplitude array is part of the dataset: [scale] multiplies in
    place, and what an in-place product does depends on it. *)

From Stdlib Require Import Reals Lra Lia ZArith String List Bool.
From Stdlib Require Import Permutation Sorted.
From Stdlib Require PrimFloat Uint63.
Import ListNotations.
Local Open Scope R_scope.

(** ** Cells *)

(** An array entry: [Some x] is the number [x], [None] is NaN. *)
Definition cell := option R.

(** A complex number as (real part, imaginary part), and a complex entry. *)
Definition complex := (R * R)%type.
Definition ccell := option complex.

(** ** The numpy functions the module calls *)
Module Np.

Definition eqb (x y : R) : bool := if Req_dec_T x y then true else false.

(** [x in arr], that is [(arr == x).any()]. *)
Definition contains (arr : list R) (x : R) : bool := existsb (fun y => eqb y x) arr.

(** [np.mod(x, m)] for [m > 0]: the remainder has the sign of [m]. *)
Definition mod_ (x m : R) : R := x - m * IZR (Int_part (x / m)).

(** [np.arctan2(y, x)], the angle of the point [(x, y)] in (-pi, pi]. *)
Definition arctan2 (y x : R) : R :=
  if Rlt_dec 0 x then atan (y / x)
  else if Rlt_dec x 0 then
         (if Rle_dec 0 y then atan (y / x) + PI else atan (y / x) - PI)
  else if Rlt_dec 0 y then PI / 2
  else if Rlt_dec y 0 then - (PI / 2)
  else 0.

(** [np.exp(1j * p)]. *)
Definition exp_1j (p : cell) : ccell := option_map (fun x => (cos x, sin x)) p.

(** [np.angle(z)]. *)
Definition angle (z : ccell) : cell := option_map (fun c => arctan2 (snd c) (fst c)) z.

(** [np.abs(z)]. *)
Definition abs (z : ccell) : cell :=
  option_map (fun c => sqrt (fst c * fst c + snd c * snd c)) z.

Definition real (z : ccell) : cell := option_map fst z.
Definition imag (z : ccell) : cell := option_map snd z.

(** [a * z] for a real [a] and a complex [z]. *)
Definition rmul (a : cell) (z : ccell) : ccell :=
  match a, z with
  | Some x, Some c => Some (x * fst c, x * snd c)
  | _, _ => None
  end.

(** [re + 1j * im]. *)
Definition of_parts (re im : cell) : ccell :=
  match re, im with
  | Some x, Some y => Some (x, y)
  | _, _ => None
  end.

Section SortBy.
Variable A : Type.
Variable key : A -> R.

Fixpoint insert_by (a : A) (l : list A) : list A :=
  match l with
  | [] => [a]
  | b :: l' => if Rle_dec (key a) (key b) then a :: l else b :: insert_by a l'
  end.

(** A stable ascending sort on [key]. *)
Definition sort_by (l : list A) : list A := fold_right insert_by [] l.
End SortBy.
Arguments insert_by {A} key a l.
Arguments sort_by {A} key l.

(** [arr.sort()]. *)
Definition sort (arr : list R) : list R := sort_by (fun x => x) arr.

(** [np.min], [np.max] of a non-empty array. *)
Definition min (l : list R) : R := fold_right Rmin (hd 0 l) l.
Definition max (l : list R) : R := fold_right Rmax (hd 0 l) l.

End Np.

(** ** The dataset *)

(** One wave direction of the dataset: what [ds.sel(wave_direction=h)]
    returns, the variables along [omega] with the scalar coordinate. *)
Record Slice := mkSlice {
  wave_direction : R;
  amplitude : list cell;
  phase : list cell;
  complex_unit : option (list ccell)
}.

(** The dtype of a stored array: an array of Python floats is float64,
    an array of Python ints is int64 and holds whole numbers only. *)
Inductive dtype := Float64 | Int64.

(** The dataset: the [omega] coordinate and one slice per wave direction,
    in the order of the [wave_direction] coordinate, with the dtype of
    the [amplitude] variable. *)
Record Dataset := mkDataset {
  omega : list R;
  slices : list Slice;
  amplitude_dtype : dtype
}.

Definition wave_directions (d : Dataset) : list R := map wave_direction (slices d).

(** The six motion modes of [mafredo.helpers.MotionMode]. *)
Inductive MotionMode := SURGE | SWAY | HEAVE | ROLL | PITCH | YAW.

(** What the attribute [mode] can hold: [None], a [MotionMode], or any
    other object. *)
Inductive mode_value :=
| ModeNone
| ModeOf (m : MotionMode)
| ModeOther (tag : string).

Record Rao := mkRao {
  _data : Dataset;
  mode : mode_value
}.

(** ** Exceptions and the method monad *)

Inductive exn :=
| ValueError | NameError | KeyError | AssertionError
| UFuncTypeError | OverflowError.

Inductive result (A : Type) :=
| Ok (a : A)
| Raise (e : exn).
Arguments Ok {A} a.
Arguments Raise {A} e.

(** A method: it reads and writes [self] and returns or raises. *)
Definition M (A : Type) := Rao -> result A * Rao.

Definition ret {A} (a : A) : M A := fun self => (Ok a, self).
Definition raise {A} (e : exn) : M A := fun self => (Raise e, self).
Definition bind {A B} (m : M A) (k : A -> M B) : M B :=
  fun self =>
    match m self with
    | (Ok a, self') => k a self'
    | (Raise e, self') => (Raise e, self')
    end.
Definition get_data : M Dataset := fun self => (Ok (_data self), self).
Definition put_data (d : Dataset) : M unit :=
  fun self => (Ok tt, mkRao d (mode self)).
Definition get_mode : M mode_value := fun self => (Ok (mode self), self).
Definition put_mode (m : mode_value) : M unit :=
  fun self => (Ok tt, mkRao (_data self) m).

Declare Scope rao_scope.
Delimit Scope rao_scope with rao.
Notation "x <- m ;; k" := (bind m (fun x => k))
  (at level 61, m at next level, right associativity) : rao_scope.
Notation "m ;; k" := (bind m (fun _ => k))
  (at level 61, right associativity) : rao_scope.
Open Scope rao_scope.

(** ** The xarray operations the module calls *)
Module Xr.

Fixpoint index_of (x : R) (l : list R) : option nat :=
  match l with
  | [] => None
  | y :: l' => if Np.eqb y x then Some O else option_map S (index_of x l')
  end.

(** [ds.sel(wave_direction=h)] on a coordinate without repeated labels. *)
Definition sel_wave_direction (d : Dataset) (h : R) : option Slice :=
  find (fun s => Np.eqb (wave_direction s) h) (slices d).

(** [var.sel(wave_direction=h, omega=w)] for a variable [var] of the slices. *)
Definition sel_point {V : Type} (var : Slice -> option (list V))
           (d : Dataset) (h w : R) : option V :=
  match sel_wave_direction d h, index_of w (omega d) with
  | Some s, Some j =>
      match var s with
      | Some row => nth_error row j
      | None => None
      end
  | _, _ => None
  end.

(** [xr.concat([ds, sym], dim='wave_direction')]. *)
Definition concat_wave_direction (d : Dataset) (sym : Slice) : Dataset :=
  mkDataset (omega d) (slices d ++ [sym]) (amplitude_dtype d).

(** [ds.sortby('wave_direction')]. *)
Definition sortby_wave_direction (d : Dataset) : Dataset :=
  mkDataset (omega d) (Np.sort_by wave_direction (slices d)) (amplitude_dtype d).

(** *** Linear interpolation along one axis *)
Section Interp1d.
Variable V : Type.
(** [lerp x_lo y_lo x_hi y_hi x]: the value at [x] on the line through
    the two knots. *)
Variable lerp : R -> V -> R -> V -> R -> V.

(** The knots are sorted; the bracket is the first pair of neighbours
    whose upper knot is not below [x]. *)
Fixpoint interp_sorted (knots : list (R * V)) (x : R) : option V :=
  match knots with
  | [] => None
  | (x0, y0) :: rest =>
      match rest with
      | [] => None
      | (x1, y1) :: _ =>
          if Rle_dec x x1 then Some (lerp x0 y0 x1 y1 x)
          else interp_sorted rest x
      end
  end.

(** [interp(..., method='linear')] at one target: the source is sorted
    on the axis first, and a target outside it gets no value (NaN). *)
Definition interp1d (xs : list R) (ys : list V) (x : R) : option V :=
  let knots := Np.sort_by fst (combine xs ys) in
  match knots with
  | [] => None
  | (x0, _) :: _ => if Rlt_dec x x0 then None else interp_sorted knots x
  end.
End Interp1d.
Arguments interp_sorted {V} lerp knots x.
Arguments interp1d {V} lerp xs ys x.

(** [slope * (x - x_lo) + y_lo] with [slope = (y_hi - y_lo) / (x_hi - x_lo)]. *)
Definition lerp_cell (x0 : R) (y0 : cell) (x1 : R) (y1 : cell) (x : R) : cell :=
  match y0, y1 with
  | Some a, Some b =>
      if Req_dec_T x0 x1 then None
      else Some ((b - a) / (x1 - x0) * (x - x0) + a)
  | _, _ => None
  end.

Definition lerp_ccell (x0 : R) (y0 : ccell) (x1 : R) (y1 : ccell) (x : R) : ccell :=
  Np.of_parts (lerp_cell x0 (Np.real y0) x1 (Np.real y1) x)
              (lerp_cell x0 (Np.imag y0) x1 (Np.imag y1) x).

Definition lerp_row {V : Type} (lerp : R -> V -> R -> V -> R -> V)
           (x0 : R) (r0 : list V) (x1 : R) (r1 : list V) (x : R) : list V :=
  map (fun ab => lerp x0 (fst ab) x1 (snd ab) x) (combine r0 r1).

Definition lerp_slice (x0 : R) (s0 : Slice) (x1 : R) (s1 : Slice) (x : R) : Slice :=
  {| wave_direction := x;
     amplitude := lerp_row lerp_cell x0 (amplitude s0) x1 (amplitude s1) x;
     phase := lerp_row lerp_cell x0 (phase s0) x1 (phase s1) x;
     complex_unit :=
       match complex_unit s0, complex_unit s1 with
       | Some c0, Some c1 => Some (lerp_row lerp_ccell x0 c0 x1 c1 x)
       | _, _ => None
       end |}.

Definition nan_of {V : Type} (o : option (option V)) : option V :=
  match o with
  | Some c => c
  | None => None
  end.

Definition interp_row {V : Type} (lerp : R -> option V -> R -> option V -> R -> option V)
           (xs : list R) (row : list (option V)) (targets : list R) : list (option V) :=
  map (fun x => nan_of (interp1d lerp xs row x)) targets.

(** [ds.interp(omega=new_omega, method='linear')]. *)
Definition interp_omega (d : Dataset) (new_omega : list R) : Dataset :=
  {| omega := new_omega;
     amplitude_dtype := Float64;
     slices :=
       map (fun s =>
              {| wave_direction := wave_direction s;
                 amplitude := interp_row lerp_cell (omega d) (amplitude s) new_omega;
                 phase := interp_row lerp_cell (omega d) (phase s) new_omega;
                 complex_unit :=
                   option_map (fun cu => interp_row lerp_ccell (omega d) cu new_omega)
                              (complex_unit s) |})
           (slices d) |}.

(** The all-NaN slice a target outside the source axis gets. *)
Definition nan_slice (d : Dataset) (h : R) : Slice :=
  let n := length (omega d) in
  {| wave_direction := h;
     amplitude := repeat None n;
     phase := repeat None n;
     complex_unit :=
       match slices d with
       | s :: _ => option_map (fun _ => repeat None n) (complex_unit s)
       | [] => None
       end |}.

(** [ds.interp(wave_direction=new_headings, method='linear')]. *)
Definition interp_wave_direction (d : Dataset) (new_headings : list R) : Dataset :=
  {| omega := omega d;
     amplitude_dtype := Float64;
       slices :=
       map (fun h =>
              match interp1d lerp_slice (wave_directions d) (slices d) h with
              | Some s => s
              | None => nan_slice d h
              end)
           new_headings |}.

End Xr.

(** ** mafredo.helpers *)
Module Helpers.

(** Modelled from the spec: [expand_omega_dim_const] of [mafredo.helpers]
    is not among the sources.  Spec 4.2, step 1: the frequency axis is
    extended, if necessary, so that its range covers the least and the
    greatest requested frequency; a request below the current minimum
    is served by a duplicate of the lowest-frequency column at that
    value, a request above the maximum by a duplicate of the
    highest-frequency column.  The spec describes requests that are not
    empty; for an empty one the dataset is left as it is here. *)
Definition expand_row {V : Type} (lo hi : bool) (ilo ihi : nat)
           (row : list (option V)) : list (option V) :=
  (if lo then [nth ilo row None] else []) ++ row
  ++ (if hi then [nth ihi row None] else []).

Definition expand_omega_dim_const (d : Dataset) (new_omega : list R) : Dataset :=
  match new_omega with
  | [] => d
  | _ :: _ =>
      match Xr.index_of (Np.min (omega d)) (omega d),
            Xr.index_of (Np.max (omega d)) (omega d) with
      | Some ilo, Some ihi =>
          let lo := if Rlt_dec (Np.min new_omega) (Np.min (omega d)) then true else false in
          let hi := if Rlt_dec (Np.max (omega d)) (Np.max new_omega) then true else false in
          {| omega := (if lo then [Np.min new_omega] else []) ++ omega d
                      ++ (if hi then [Np.max new_omega] else []);
             amplitude_dtype := amplitude_dtype d;
             slices :=
               map (fun s =>
                      {| wave_direction := wave_direction s;
                         amplitude := expand_row lo hi ilo ihi (amplitude s);
                         phase := expand_row lo hi ilo ihi (phase s);
                         complex_unit :=
                           option_map (expand_row lo hi ilo ihi) (complex_unit s) |})
                   (slices d) |}
      | _, _ => d
      end
  end.

Definition with_direction (h : R) (s : Slice) : Slice :=
  {| wave_direction := h;
     amplitude := amplitude s;
     phase := phase s;
     complex_unit := complex_unit s |}.

(** Modelled from the spec: [expand_direction_to_full_range] of
    [mafredo.helpers] is not among the sources.  Spec 4.3, step 1: the
    heading axis is expanded over a full period by duplicating the
    boundary columns at [h + 360] and [h - 360] as needed: the column of
    the lowest heading is repeated 360 degrees up, the column of the
    highest heading 360 degrees down, unless the axis already holds a
    column there. *)
Definition expand_direction_to_full_range (d : Dataset) : Dataset :=
  let hs := wave_directions d in
  match Xr.sel_wave_direction d (Np.min hs), Xr.sel_wave_direction d (Np.max hs) with
  | Some lowest, Some highest =>
      {| omega := omega d;
         amplitude_dtype := amplitude_dtype d;
           slices :=
           (if Np.contains hs (Np.max hs - 360) then []
            else [with_direction (Np.max hs - 360) highest])
           ++ slices d
           ++ (if Np.contains hs (Np.min hs + 360) then []
               else [with_direction (Np.min hs + 360) lowest]) |}
  | _, _ => d
  end.

End Helpers.

(** ** rao.py *)

(** [_complex_unit_add]: [data['complex_unit'] = np.exp(1j * data['phase'])],
    written on the dataset it is given. *)
Definition _complex_unit_add (data : Dataset) : Dataset :=
  {| omega := omega data;
     amplitude_dtype := amplitude_dtype data;
     slices :=
       map (fun s =>
              {| wave_direction := wave_direction s;
                 amplitude := amplitude s;
                 phase := phase s;
                 complex_unit := Some (map Np.exp_1j (phase s)) |})
           (slices data) |}.

(** [_complex_unit_delete]: [data.drop_vars('complex_unit')]. *)
Definition _complex_unit_delete (data : Dataset) : Dataset :=
  {| omega := omega data;
     amplitude_dtype := amplitude_dtype data;
     slices :=
       map (fun s =>
              {| wave_direction := wave_direction s;
                 amplitude := amplitude s;
                 phase := phase s;
                 complex_unit := None |})
           (slices data) |}.

(** [_complex_unit_to_phase]: [data['phase'].values = np.angle(data['complex_unit'].values)];
    it is called on datasets that hold the channel. *)
Definition _complex_unit_to_phase (data : Dataset) : Dataset :=
  {| omega := omega data;
     amplitude_dtype := amplitude_dtype data;
     slices :=
       map (fun s =>
              {| wave_direction := wave_direction s;
                 amplitude := amplitude s;
                 phase := match complex_unit s with
                          | Some cu => map Np.angle cu
                          | None => phase s
                          end;
                 complex_unit := complex_unit s |})
           (slices data) |}.

(** [Rao()]: the dummy 2x2 grid, no mode. *)
Definition __init__ : Rao :=
  {| _data :=
       {| omega := [0; 4];
          amplitude_dtype := Float64;
          slices :=
            [ {| wave_direction := 0;
                 amplitude := [Some 0; Some 0];
                 phase := [Some 0; Some 0];
                 complex_unit := None |};
              {| wave_direction := 180;
                 amplitude := [Some 0; Some 0];
                 phase := [Some 0; Some 0];
                 complex_unit := None |} ] |};
     mode := ModeNone |}.

Definition n_frequencies (self : Rao) : nat := length (omega (_data self)).
Definition n_wave_directions (self : Rao) : nat := length (wave_directions (_data self)).

(** [self['complex_unit']]: the channel is computed onto [self._data] and
    stays there; the caller reads it off the dataset returned. *)
Definition __getitem__complex_unit : M Dataset :=
  d <- get_data ;;
  let d' := _complex_unit_add d in
  put_data d' ;;
  ret d'.

(** The dataset [to_xarray_nocomplex] returns: [real] and [imag] in place
    of [amplitude] and [phase]. *)
Record NcSlice := mkNcSlice {
  nc_wave_direction : R;
  real : list cell;
  imag : list cell;
  nc_complex_unit : option (list ccell)
}.

Record NcDataset := mkNcDataset {
  nc_omega : list R;
  nc_slices : list NcSlice
}.

Definition zip_with {A B C : Type} (f : A -> B -> C) (l : list A) (l' : list B) : list C :=
  map (fun ab => f (fst ab) (snd ab)) (combine l l').

Definition to_xarray_nocomplex : M NcDataset :=
  e <- get_data ;;
  cu <- __getitem__complex_unit ;;
  ret {| nc_omega := omega e;
         nc_slices :=
           zip_with (fun s c =>
                       let a := zip_with Np.rmul (amplitude s)
                                         (match complex_unit c with
                                          | Some u => u
                                          | None => []
                                          end) in
                       {| nc_wave_direction := wave_direction s;
                          real := map Np.real a;
                          imag := map Np.imag a;
                          nc_complex_unit := complex_unit s |})
                    (slices e) (slices cu) |}.

Definition from_xarray_nocomplex (a : NcDataset) (mode_ : mode_value) : M unit :=
  match mode_ with
  | ModeOf _ =>
      put_data
        {| omega := nc_omega a;
           amplitude_dtype := Float64;
           slices :=
             map (fun s =>
                    let c := zip_with Np.of_parts (real s) (imag s) in
                    {| wave_direction := nc_wave_direction s;
                       amplitude := map Np.abs c;
                       phase := map Np.angle c;
                       complex_unit := nc_complex_unit s |})
                 (nc_slices a) |} ;;
      put_mode mode_
  | _ => raise AssertionError
  end.

(** [xr.Dataset(...)] raises [ValueError] on arrays whose shape is not
    (directions, omegas). *)
Definition shape_ok (directions omegas : list R) (arr : list (list cell)) : bool :=
  Nat.eqb (length arr) (length directions)
  && forallb (fun row => Nat.eqb (length row) (length omegas)) arr.

(** [set_data]: the arrays are stored as given, the amplitudes with the
    dtype [dt] they come with; the argument [mode] is not used. *)
Definition set_data (dt : dtype) (directions omegas : list R)
           (amplitude_ phase_ : list (list cell)) (mode_ : mode_value) : M unit :=
  if shape_ok directions omegas amplitude_ && shape_ok directions omegas phase_ then
    put_data
      {| omega := omegas;
         amplitude_dtype := dt;
         slices :=
           zip_with (fun h ap =>
                       {| wave_direction := h;
                          amplitude := fst ap;
                          phase := snd ap;
                          complex_unit := None |})
                    directions (combine amplitude_ phase_) |}
  else raise ValueError.

Definition regrid_omega (new_omega : list R) : M unit :=
  d <- get_data ;;
  let temp := Helpers.expand_omega_dim_const d new_omega in
  let temp := _complex_unit_add temp in
  put_data (Xr.interp_omega temp new_omega) ;;
  d <- get_data ;;
  put_data (_complex_unit_to_phase d) ;;
  d <- get_data ;;
  put_data (_complex_unit_delete d).

Definition regrid_direction (new_headings : list R) : M unit :=
  d <- get_data ;;
  let expanded := Helpers.expand_direction_to_full_range d in
  let expanded := _complex_unit_add expanded in
  put_data (Xr.interp_wave_direction expanded new_headings) ;;
  d <- get_data ;;
  put_data (_complex_unit_to_phase d) ;;
  d <- get_data ;;
  put_data (_complex_unit_delete d).

Definition add_direction (wave_direction_ : R) : M unit :=
  d <- get_data ;;
  let headings := wave_directions d in
  if negb (Np.contains headings wave_direction_) then
    regrid_direction (Np.sort (headings ++ [wave_direction_]))
  else ret tt.

(** [add_frequency] for a number [omega]: [len(omega)] raises and the
    number is wrapped into the one-element list [[omega]]. *)
Definition add_frequency (omega_ : R) : M unit :=
  d <- get_data ;;
  let frequencies := omega d in
  if negb (Np.contains frequencies omega_) then
    regrid_omega (Np.sort (frequencies ++ [omega_]))
  else ret tt.

(** A Python number given as [factor]: an [int] or a [float]. *)
Inductive pynum :=
| PyInt (z : Z)
| PyFloat (r : R).

Definition value (x : pynum) : R :=
  match x with
  | PyInt z => IZR z
  | PyFloat r => r
  end.

(** An [int] that converts to a float64: its magnitude rounds to a
    finite double. *)
Definition float64_holds (z : Z) : bool :=
  (Z.abs z <? 2 ^ 1024 - 2 ^ 970)%Z.

(** An [int] within the int64 range. *)
Definition int64_holds (z : Z) : bool :=
  ((- 2 ^ 63 <=? z) && (z <? 2 ^ 63))%Z.

(** int64 products wrap around. *)
Definition int64_wrap (z : Z) : Z :=
  ((z + 2 ^ 63) mod 2 ^ 64 - 2 ^ 63)%Z.

(** [values *= factor] on an array of dtype [dt], in place: what one
    entry becomes, or the exception NumPy raises before it writes
    anything.  A float64 array takes the product with a float, and with
    an [int] once that is converted to a float.  An int64 array takes
    the wrapped product with an [int] of its range; the product with a
    float is a float64, which the casting rule [same_kind] does not
    store into an int64 array.  An [int] the dtype does not hold is
    refused, with the [OverflowError] of NumPy 2. *)
Definition imul (dt : dtype) (factor : pynum) : exn + (R -> R) :=
  match dt, factor with
  | Float64, PyFloat r => inr (fun a => a * r)
  | Float64, PyInt z =>
      if float64_holds z then inr (fun a => a * IZR z) else inl OverflowError
  | Int64, PyInt z =>
      if int64_holds z then inr (fun a => IZR (int64_wrap (Int_part a * z)))
      else inl OverflowError
  | Int64, PyFloat _ => inl UFuncTypeError
  end.

Definition scale (factor : pynum) : M unit :=
  if Rlt_dec (value factor) 0 then raise ValueError
  else
    d <- get_data ;;
    match imul (amplitude_dtype d) factor with
    | inl e => raise e
    | inr times =>
        put_data
          {| omega := omega d;
             amplitude_dtype := amplitude_dtype d;
             slices :=
               map (fun s =>
                      {| wave_direction := wave_direction s;
                         amplitude := map (option_map times) (amplitude s);
                         phase := phase s;
                         complex_unit := complex_unit s |})
                   (slices d) |}
    end.

(** [cu * amp]. *)
Definition cmul (cu : ccell) (amp : cell) : ccell :=
  match cu, amp with
  | Some c, Some a => Some (fst c * a, snd c * a)
  | _, _ => None
  end.

Definition get_value (omega_ wave_direction_ : R) : M ccell :=
  add_direction wave_direction_ ;;
  add_frequency omega_ ;;
  d <- get_data ;;
  match Xr.sel_point (fun s => Some (amplitude s)) d wave_direction_ omega_ with
  | None => raise KeyError
  | Some amp =>
      d' <- __getitem__complex_unit ;;
      match Xr.sel_point complex_unit d' wave_direction_ omega_ with
      | None => raise KeyError
      | Some cu => ret (cmul cu amp)
      end
  end.

(** The slice [sym] after its coordinate is set to [direction_copy] and,
    for an opposite mode, [sym['phase'] = -sym['phase'] + np.pi]. *)
Definition mirrored (opposite : bool) (direction_copy : R) (sym : Slice) : Slice :=
  {| wave_direction := direction_copy;
     amplitude := amplitude sym;
     phase := if opposite then map (option_map (fun p => - p + PI)) (phase sym)
              else phase sym;
     complex_unit := complex_unit sym |}.

(** The loop of [add_symmetry_xz] over [todo], a suffix of [directions],
    the coordinate as it was when the loop started. *)
Fixpoint symmetry_loop (opposite : bool) (directions todo : list R) : M unit :=
  match todo with
  | [] => ret tt
  | direction :: rest =>
      let direction_copy := Np.mod_ (- direction) 360 in
      if Np.contains directions direction_copy then
        symmetry_loop opposite directions rest
      else
        d <- get_data ;;
        match Xr.sel_wave_direction d direction with
        | None => raise KeyError
        | Some sym =>
            put_data (Xr.concat_wave_direction d (mirrored opposite direction_copy sym)) ;;
            symmetry_loop opposite directions rest
        end
  end.

Definition symmetry_body (opposite : bool) : M unit :=
  d <- get_data ;;
  let directions := wave_directions d in
  symmetry_loop opposite directions directions ;;
  d <- get_data ;;
  put_data (Xr.sortby_wave_direction d).

(** [add_symmetry_xz].  In the last branch the message of the
    [ValueError] is formatted with [mode], a name that is bound neither
    in the method nor in the module: evaluating it raises [NameError]
    before the [ValueError] is built. *)
Definition add_symmetry_xz : M unit :=
  m <- get_mode ;;
  match m with
  | ModeOf SWAY | ModeOf ROLL | ModeOf YAW => symmetry_body true
  | ModeOf SURGE | ModeOf HEAVE | ModeOf PITCH => symmetry_body false
  | _ => raise NameError
  end.

(** ** Vocabulary of the statements *)

(** [var[i, j]]: the entry of a variable at direction index [i] and
    frequency index [j], when the grid has one there. *)
Definition cell_at (var : Slice -> list cell) (d : Dataset) (i j : nat) : option cell :=
  match nth_error (slices d) i with
  | Some s => nth_error (var s) j
  | None => None
  end.

(** The mirror of a heading about the xz-plane, [np.mod(-h, 360)]. *)
Definition mirror (h : R) : R := Np.mod_ (- h) 360.

(** Equality of angles modulo a full turn. *)
Definition congruent_2pi (p q : R) : Prop := exists k : Z, q = p + 2 * IZR k * PI.

(** No entry of the amplitude is a negative number. *)
Definition nonneg_cell (c : cell) : Prop :=
  match c with
  | Some a => 0 <= a
  | None => True
  end.

Definition amplitude_nonneg (d : Dataset) : Prop :=
  Forall (fun s => Forall nonneg_cell (amplitude s)) (slices d).

(** The slices the loop of [add_symmetry_xz] appends when it runs over
    [todo] on a dataset whose slices were [base] at the start. *)
Definition additions (opposite : bool) (base : list Slice) (todo : list R) : list Slice :=
  flat_map
    (fun direction =>
       if Np.contains (map wave_direction base) (mirror direction) then []
       else match find (fun s => Np.eqb (wave_direction s) direction) base with
            | Some sym => [mirrored opposite (mirror direction) sym]
            | None => []
            end)
    todo.

(** Ascending order on [key]. *)
Definition ascending {A : Type} (key : A -> R) : list A -> Prop :=
  StronglySorted (fun a b => key a <= key b).

(** The sign convention of a mode: [true] for the modes whose response
    changes sign under the mirror. *)
Definition opposite_mode (m : MotionMode) : bool :=
  match m with
  | SWAY | ROLL | YAW => true
  | SURGE | HEAVE | PITCH => false
  end.

(** Two entries hold angles that agree modulo a full turn. *)
Definition cell_congruent (p q : cell) : Prop :=
  match p, q with
  | Some x, Some y => congruent_2pi x y
  | None, None => True
  | _, _ => False
  end.

(** A roll grid with the single heading 30 degrees. *)
Definition grid_roll_30 : Rao :=
  {| _data :=
       {| omega := [1];
          amplitude_dtype := Float64;
          slices := [ {| wave_direction := 30;
                         amplitude := [Some 2];
                         phase := [Some 1];
                         complex_unit := None |} ] |};
     mode := ModeOf ROLL |}.

(** The fresh grid with the mode HEAVE. *)
Definition grid_heave_0_180 : Rao := mkRao (_data __init__) (ModeOf HEAVE).

(** A heave grid with the single heading -30 degrees. *)
Definition grid_minus_30 : Rao :=
  {| _data :=
       {| omega := [1];
          amplitude_dtype := Float64;
          slices := [ {| wave_direction := -30;
                         amplitude := [Some 2];
                         phase := [Some 0];
                         complex_unit := None |} ] |};
     mode := ModeOf HEAVE |}.

(** Export to the flattened dataset, then import into a fresh object. *)
Definition nocomplex_round_trip (m : MotionMode) : M unit :=
  fun self =>
    match to_xarray_nocomplex self with
    | (Ok e, _) => from_xarray_nocomplex e (ModeOf m) __init__
    | (Raise x, self') => (Raise x, self')
    end.

(** What the round trip makes of one slice. *)
Definition round_trip_slice (s : Slice) : Slice :=
  let a := zip_with Np.rmul (amplitude s) (map Np.exp_1j (phase s)) in
  let c := zip_with Np.of_parts (map Np.real a) (map Np.imag a) in
  {| wave_direction := wave_direction s;
     amplitude := map Np.abs c;
     phase := map Np.angle c;
     complex_unit := complex_unit s |}.

(** A surge grid with a zero amplitude next to a phase of 1 radian, and
    a unit amplitude next to a phase of a full turn. *)
Definition grid_polar_edge : Rao :=
  {| _data :=
       {| omega := [1; 2];
          amplitude_dtype := Float64;
          slices := [ {| wave_direction := 0;
                         amplitude := [Some 0; Some 1];
                         phase := [Some 1; Some (2 * PI)];
                         complex_unit := None |} ] |};
     mode := ModeOf SURGE |}.

(** The dataset [regrid_omega] and [regrid_direction] leave on [self]. *)
Definition regrid_omega_data (new_omega : list R) (d : Dataset) : Dataset :=
  _complex_unit_delete
    (_complex_unit_to_phase
       (Xr.interp_omega (_complex_unit_add (Helpers.expand_omega_dim_const d new_omega))
                        new_omega)).

Definition regrid_direction_data (new_headings : list R) (d : Dataset) : Dataset :=
  _complex_unit_delete
    (_complex_unit_to_phase
       (Xr.interp_wave_direction
          (_complex_unit_add (Helpers.expand_direction_to_full_range d)) new_headings)).

(** A method keeps the amplitudes of [self] free of negative numbers,
    whether it returns or raises. *)
Definition preserves {A : Type} (m : M A) : Prop :=
  forall self : Rao,
    amplitude_nonneg (_data self) -> amplitude_nonneg (_data (snd (m self))).

(** The same from the states that satisfy [P]. *)
Definition preserves_from (P : Rao -> Prop) {A : Type} (m : M A) : Prop :=
  forall self : Rao,
    P self -> amplitude_nonneg (_data self) -> amplitude_nonneg (_data (snd (m self))).

(** The column at 359 degrees on the line from the column [s350] at 350
    degrees to a copy of the column [s0] placed at 360 degrees: the
    amplitude and the phase vector are interpolated, and the phase is the
    angle of the interpolated phase vector. *)
Definition wrap_column (s350 s0 : Slice) : Slice :=
  {| wave_direction := 359;
     amplitude := Xr.lerp_row Xr.lerp_cell 350 (amplitude s350) 360 (amplitude s0) 359;
     phase := map Np.angle
                  (Xr.lerp_row Xr.lerp_ccell 350 (map Np.exp_1j (phase s350))
                               360 (map Np.exp_1j (phase s0)) 359);
     complex_unit := None |}.

(** A heave grid with the headings 0, 350 and 355 and one frequency:
    amplitude 10 at heading 0, amplitude 0 at the other two. *)
Definition grid_0_350_355 : Rao :=
  {| _data :=
       {| omega := [1];
          amplitude_dtype := Float64;
          slices := [ mkSlice 0 [Some 10] [Some 0] None;
                      mkSlice 350 [Some 0] [Some 0] None;
                      mkSlice 355 [Some 0] [Some 0] None ] |};
     mode := ModeOf HEAVE |}.

(** The heave grid with the headings 0 and 350 only. *)
Definition grid_0_350 : Rao :=
  {| _data :=
       {| omega := [1];
          amplitude_dtype := Float64;
          slices := [ mkSlice 0 [Some 10] [Some 0] None;
                      mkSlice 350 [Some 0] [Some 0] None ] |};
     mode := ModeOf HEAVE |}.

(** A slice with the channel [_complex_unit_add] writes on it. *)
Definition with_complex_unit (s : Slice) : Slice :=
  {| wave_direction := wave_direction s;
     amplitude := amplitude s;
     phase := phase s;
     complex_unit := Some (map Np.exp_1j (phase s)) |}.

(** An entry holds a principal angle, one in (-pi, pi]. *)
Definition principal_cell (c : cell) : Prop :=
  match c with
  | Some p => - PI < p <= PI
  | None => True
  end.

(** The grid is a dense rectangle: every slice has one amplitude and one
    phase per frequency. *)
Definition dense (d : Dataset) : Prop :=
  Forall (fun s => length (amplitude s) = length (omega d)
                   /\ length (phase s) = length (omega d))
         (slices d).

(** Two exports in a row. *)
Definition export_twice : M (NcDataset * NcDataset) :=
  e1 <- to_xarray_nocomplex ;;
  e2 <- to_xarray_nocomplex ;;
  ret (e1, e2).

(** The phase-vector bracket of the regrid methods with no interpolation
    in between: add the channel, read the phase back, drop the channel. *)
Definition phase_bracket (d : Dataset) : Dataset :=
  _complex_unit_delete (_complex_unit_to_phase (_complex_unit_add d)).

(** [var[i, j]] of an exported dataset. *)
Definition nc_cell_at (var : NcSlice -> list cell) (e : NcDataset) (i j : nat) : option cell :=
  match nth_error (nc_slices e) i with
  | Some s => nth_error (var s) j
  | None => None
  end.

(** What [to_xarray_nocomplex] makes of one slice. *)
Definition export_slice (s : Slice) : NcSlice :=
  let a := zip_with Np.rmul (amplitude s) (map Np.exp_1j (phase s)) in
  {| nc_wave_direction := wave_direction s;
     real := map Np.real a;
     imag := map Np.imag a;
     nc_complex_unit := complex_unit s |}.

(** An entry is a number, not NaN. *)
Definition is_number (c : cell) : Prop :=
  match c with
  | Some _ => True
  | None => False
  end.

(** The two runs a statement compares. *)
Definition state_after {A : Type} (m : M A) (self : Rao) : Rao := snd (m self).
Definition outcome {A : Type} (m : M A) (self : Rao) : result A := fst (m self).

(** A heading of a whole number of degrees in [0, 360). *)
Definition whole_degree (h : R) : Prop :=
  exists z : Z, (0 <= z < 360)%Z /\ h = IZR z.

(** Headings as the doubles the program holds. *)
Module Binary64.
Import PrimFloat.

(** [np.mod(-h, 360)] as binary64 computes it for a heading [h] strictly
    between 0 and 360: the remainder of [-h] is [-h] itself, it has the
    other sign than 360, and 360 is added to it, in one rounded
    addition. *)
Definition mirror (h : float) : float := add (opp h) 360%float.

(** The double of a whole number. *)
Definition of_Z (z : Z) : float := of_uint63 (Uint63.of_Z z).

(** The double nearest to 0.1. *)
Definition tenth : float := 0x1.999999999999ap-4%float.

End Binary64.

(** The amplitudes are stored as floats. *)
Definition float_amplitudes (self : Rao) : Prop :=
  amplitude_dtype (_data self) = Float64.

(** The factor is a float, or an [int] of the int64 range. *)
Definition float_operand (factor : pynum) : bool :=
  match factor with
  | PyFloat _ => true
  | PyInt z => int64_holds z
  end.

(** [r = Rao(); r.set_data([0], [1], [[2]], [[0]])]: the amplitudes are
    given as Python ints. *)
Definition grid_int64 : Rao :=
  state_after (set_data Int64 [0] [1] [[Some 2]] [[Some 0]] ModeNone) __init__.

(** [r = Rao(); r.set_data([0], [1], [[2**62]], [[0]])]. *)
Definition grid_int64_large : Rao :=
  state_after (set_data Int64 [0] [1] [[Some (IZR (2 ^ 62))]] [[Some 0]] ModeNone)
              __init__.

(** ** Tactics *)

(** Case analysis on every comparison of reals in the goal; the branches
    that contradict the context are closed. *)
Ltac rcases :=
  repeat match goal with
         | |- context [Rlt_dec ?a ?b] => destruct (Rlt_dec a b); try lra
         | |- context [Rle_dec ?a ?b] => destruct (Rle_dec a b); try lra
         | |- context [Req_dec_T ?a ?b] => destruct (Req_dec_T a b); try lra
         end.

(** Evaluation of a closed term: comparisons are decided, then reduced. *)
Ltac reval :=
  unfold Np.contains, Np.eqb; simpl;
  repeat (progress (rcases; simpl)).

Ltac run := unfold bind, ret, raise, get_data, put_data, get_mode, put_mode; simpl.

(** ** The constructor *)

(** C10.  A freshly constructed [Rao] is a dense 2x2 grid: headings
    [0, 180], frequencies [0, 4], every amplitude and every phase 0, no
    phase-vector channel, and no mode. *)
Theorem init_is_dummy_grid :
  wave_directions (_data __init__) = [0; 180]
  /\ omega (_data __init__) = [0; 4]
  /\ n_wave_directions __init__ = 2%nat
  /\ n_frequencies __init__ = 2%nat
  /\ (forall i j, (i < 2)%nat -> (j < 2)%nat ->
        cell_at amplitude (_data __init__) i j = Some (Some 0)
        /\ cell_at phase (_data __init__) i j = Some (Some 0))
  /\ Forall (fun s => length (amplitude s) = 2%nat /\ length (phase s) = 2%nat
                      /\ complex_unit s = None)
            (slices (_data __init__))
  /\ mode __init__ = ModeNone.
Proof.
  repeat split; try reflexivity.
  - destruct i as [|[|i]], j as [|[|j]]; try lia; reflexivity.
  - destruct i as [|[|i]], j as [|[|j]]; try lia; reflexivity.
  - repeat constructor.
Qed.

(** ** Scaling *)

Lemma Int_part_IZR (z : Z) : Int_part (IZR z) = z.
Proof. symmetry. apply Int_part_spec. lra. Qed.

(** What [scale] writes when the multiplication goes through. *)
Lemma scale_run (factor : pynum) (times : R -> R) (self : Rao) :
  ~ value factor < 0 ->
  imul (amplitude_dtype (_data self)) factor = inr times ->
  scale factor self
  = (Ok tt,
     mkRao (mkDataset (omega (_data self))
                      (map (fun s => mkSlice (wave_direction s)
                                             (map (option_map times) (amplitude s))
                                             (phase s) (complex_unit s))
                           (slices (_data self)))
                      (amplitude_dtype (_data self)))
           (mode self)).
Proof.
  intros Hpos Himul. unfold scale.
  destruct (Rlt_dec (value factor) 0) as [Hneg | _]; [contradiction |].
  unfold bind, get_data. rewrite Himul. reflexivity.
Qed.

Lemma int64_holds_float64 (z : Z) : int64_holds z = true -> float64_holds z = true.
Proof.
  unfold int64_holds, float64_holds. intros H.
  apply andb_true_iff in H. destruct H as [Hlo Hhi].
  apply Z.leb_le in Hlo. apply Z.ltb_lt in Hhi. apply Z.ltb_lt.
  assert (Hbig : (2 ^ 63 < 2 ^ 1024 - 2 ^ 970)%Z) by now vm_compute.
  remember (2 ^ 63)%Z as lim. remember (2 ^ 1024 - 2 ^ 970)%Z as top. lia.
Qed.

Lemma imul_float (factor : pynum) :
  float_operand factor = true ->
  imul Float64 factor = inr (fun a => a * value factor).
Proof.
  destruct factor as [z | r]; simpl; intros H; [| reflexivity].
  now rewrite (int64_holds_float64 z H).
Qed.

(** C5.  On a grid whose amplitudes are stored as floats, and for a
    factor that is a float or an [int] of the int64 range: [scale]
    raises exactly when [factor < 0], and then the grid is as before;
    for [factor >= 0] every amplitude entry is multiplied by [factor],
    and the phase, both axes, the mode and the dtype are as before. *)
Theorem scale_spec (factor : pynum) (self : Rao) :
  float_amplitudes self ->
  float_operand factor = true ->
  ((exists e, outcome (scale factor) self = Raise e) <-> value factor < 0)
  /\ (value factor < 0 -> scale factor self = (Raise ValueError, self))
  /\ (0 <= value factor ->
      outcome (scale factor) self = Ok tt
      /\ let d := _data self in
         let d' := _data (state_after (scale factor) self) in
         omega d' = omega d
         /\ wave_directions d' = wave_directions d
         /\ mode (state_after (scale factor) self) = mode self
         /\ float_amplitudes (state_after (scale factor) self)
         /\ (forall i j,
               cell_at amplitude d' i j
               = option_map (option_map (fun a => a * value factor))
                            (cell_at amplitude d i j))
         /\ (forall i j, cell_at phase d' i j = cell_at phase d i j)).
Proof.
  intros Hfloat Hfactor.
  pose proof (imul_float factor Hfactor) as Himul.
  unfold float_amplitudes in *. rewrite <- Hfloat in Himul.
  destruct (Rlt_dec (value factor) 0) as [Hneg | Hpos].
  - assert (Hrun : scale factor self = (Raise ValueError, self)).
    { unfold scale. now destruct (Rlt_dec (value factor) 0). }
    unfold outcome. rewrite Hrun. split; [| split].
    + split; [intros _; exact Hneg | intros _; now exists ValueError].
    + reflexivity.
    + lra.
  - unfold outcome, state_after. rewrite (scale_run factor _ self Hpos Himul).
    split; [| split].
    + split; [intros [e He]; discriminate He | lra].
    + lra.
    + intros _. simpl. split; [reflexivity |]. split; [reflexivity |].
      split; [unfold wave_directions; simpl; rewrite map_map; reflexivity |].
      split; [reflexivity |]. split; [exact Hfloat |]. split.
      * intros i j. unfold cell_at; simpl. rewrite nth_error_map.
        destruct (nth_error (slices (_data self)) i) as [s|]; simpl; [| reflexivity].
        now rewrite nth_error_map.
      * intros i j. unfold cell_at; simpl. rewrite nth_error_map.
        now destruct (nth_error (slices (_data self)) i).
Qed.

(** At [factor = 2.0] on the roll grid with the amplitude 2: the call
    returns and the amplitude is 2 * 2. *)
Lemma scale_spec_witness :
  float_amplitudes grid_roll_30
  /\ float_operand (PyFloat 2) = true
  /\ 0 <= value (PyFloat 2)
  /\ outcome (scale (PyFloat 2)) grid_roll_30 = Ok tt
  /\ cell_at amplitude (_data (state_after (scale (PyFloat 2)) grid_roll_30)) 0 0
     = Some (Some (2 * 2)).
Proof.
  assert (H2 : 0 <= value (PyFloat 2)) by (simpl; lra).
  split; [reflexivity |]. split; [reflexivity |]. split; [exact H2 |].
  destruct (scale_spec (PyFloat 2) grid_roll_30 eq_refl eq_refl) as [_ [_ Hpos]].
  destruct (Hpos H2) as [Hok [_ [_ [_ [_ [Hamp _]]]]]].
  split; [exact Hok |]. exact (Hamp 0%nat 0%nat).
Defined.

(** On the grid [set_data([0], [1], [[2]], [[0]])] the amplitudes are an
    int64 array: [scale(0.5)] raises [UFuncTypeError] although the factor
    is not negative, and the grid is as before. *)
Lemma scale_fraction_on_int64_grid :
  0 <= value (PyFloat (1 / 2))
  /\ scale (PyFloat (1 / 2)) grid_int64 = (Raise UFuncTypeError, grid_int64).
Proof.
  split; [simpl; lra |].
  unfold scale. destruct (Rlt_dec (value (PyFloat (1 / 2))) 0) as [Hneg | _].
  - simpl in Hneg. lra.
  - reflexivity.
Qed.

(** ** Symmetry: the mode check *)

(** C4.  On a grid without a mode, and on one whose mode is none of the
    six, [add_symmetry_xz] raises [NameError], not [ValueError]; the grid
    is as before. *)
Theorem add_symmetry_xz_unknown_mode :
  add_symmetry_xz __init__ = (Raise NameError, __init__)
  /\ (forall d, add_symmetry_xz (mkRao d ModeNone) = (Raise NameError, mkRao d ModeNone))
  /\ (forall d tag,
        add_symmetry_xz (mkRao d (ModeOther tag)) = (Raise NameError, mkRao d (ModeOther tag))).
Proof.
  repeat split.
Qed.

(** ** Sorting *)

Section SortFacts.
Variable A : Type.
Variable key : A -> R.

Lemma insert_by_perm (a : A) (l : list A) :
  Permutation (Np.insert_by key a l) (a :: l).
Proof.
  induction l as [| b l IH]; simpl; [reflexivity |].
  destruct (Rle_dec (key a) (key b)); [reflexivity |].
  rewrite IH. apply perm_swap.
Qed.

Lemma sort_by_perm (l : list A) : Permutation (Np.sort_by key l) l.
Proof.
  induction l as [| a l IH]; simpl; [constructor |].
  rewrite insert_by_perm. now constructor.
Qed.

Lemma sort_by_In (l : list A) (x : A) : In x (Np.sort_by key l) <-> In x l.
Proof.
  split; apply Permutation_in; [| symmetry]; apply sort_by_perm.
Qed.

Lemma insert_by_ascending (a : A) (l : list A) :
  ascending key l -> ascending key (Np.insert_by key a l).
Proof.
  unfold ascending. induction l as [| b l IH]; intros Hs; simpl.
  - repeat constructor.
  - inversion Hs as [| ? ? Hl Hb]; subst.
    destruct (Rle_dec (key a) (key b)) as [Hab | Hab].
    + constructor; [exact Hs |].
      constructor; [exact Hab |].
      rewrite Forall_forall in Hb |- *. intros x Hx. specialize (Hb x Hx). lra.
    + constructor; [now apply IH |].
      rewrite Forall_forall in Hb |- *. intros x Hx.
      apply (Permutation_in _ (insert_by_perm a l)) in Hx.
      destruct Hx as [<- | Hx]; [lra | now apply Hb].
Qed.

Lemma sort_by_ascending (l : list A) : ascending key (Np.sort_by key l).
Proof.
  induction l as [| a l IH]; simpl; [constructor | now apply insert_by_ascending].
Qed.

Lemma sort_by_fixes_ascending (l : list A) : ascending key l -> Np.sort_by key l = l.
Proof.
  unfold ascending. induction l as [| a l IH]; intros Hs; [reflexivity |].
  inversion Hs as [| ? ? Hl Ha]; subst. simpl. rewrite (IH Hl).
  destruct l as [| b l]; [reflexivity |]. simpl.
  inversion Ha; subst. now destruct (Rle_dec (key a) (key b)).
Qed.

Lemma sort_by_idem (l : list A) : Np.sort_by key (Np.sort_by key l) = Np.sort_by key l.
Proof. apply sort_by_fixes_ascending, sort_by_ascending. Qed.

End SortFacts.
Arguments sort_by_perm {A} key l.
Arguments sort_by_In {A} key l x.
Arguments sort_by_ascending {A} key l.
Arguments sort_by_fixes_ascending {A} key l.
Arguments sort_by_idem {A} key l.

(** ** Membership and mirrors *)

Lemma eqb_true (x y : R) : Np.eqb x y = true <-> x = y.
Proof. unfold Np.eqb. destruct (Req_dec_T x y); split; congruence. Qed.

Lemma eqb_refl (x : R) : Np.eqb x x = true.
Proof. now apply eqb_true. Qed.

Lemma contains_In (l : list R) (x : R) : Np.contains l x = true <-> In x l.
Proof.
  unfold Np.contains. rewrite existsb_exists. split.
  - intros [y [Hy He]]. apply eqb_true in He. now subst.
  - intros Hx. exists x. split; [exact Hx | apply eqb_refl].
Qed.

Lemma contains_false (l : list R) (x : R) : Np.contains l x = false <-> ~ In x l.
Proof.
  rewrite <- contains_In. destruct (Np.contains l x); split; congruence.
Qed.

Lemma mirror_zero : mirror 0 = 0.
Proof.
  unfold mirror, Np.mod_.
  rewrite <- (Int_part_spec (- 0 / 360) 0); lra.
Qed.

Lemma mirror_pos (h : R) : 0 < h <= 360 -> mirror h = 360 - h.
Proof.
  intros Hh. unfold mirror, Np.mod_.
  rewrite <- (Int_part_spec (- h / 360) (-1)); lra.
Qed.

Lemma mirror_neg (h : R) : -360 < h <= 0 -> mirror h = - h.
Proof.
  intros Hh. unfold mirror, Np.mod_.
  rewrite <- (Int_part_spec (- h / 360) 0); lra.
Qed.

Lemma mirror_range (h : R) : 0 <= h < 360 -> 0 <= mirror h < 360.
Proof.
  intros Hh. destruct (Req_dec_T h 0) as [-> | Hn].
  - rewrite mirror_zero. lra.
  - rewrite mirror_pos; lra.
Qed.

Lemma mirror_involutive (h : R) : 0 <= h < 360 -> mirror (mirror h) = h.
Proof.
  intros Hh. destruct (Req_dec_T h 0) as [-> | Hn].
  - now rewrite !mirror_zero.
  - rewrite (mirror_pos h) by lra. rewrite mirror_pos; lra.
Qed.

(** ** Symmetry: the loop *)

Arguments mirror : simpl never.
Arguments Np.mod_ : simpl never.

Lemma find_direction_app (base acc : list Slice) (h : R) :
  In h (map wave_direction base) ->
  exists s, find (fun s => Np.eqb (wave_direction s) h) base = Some s
            /\ find (fun s => Np.eqb (wave_direction s) h) (base ++ acc) = Some s.
Proof.
  induction base as [| b base IH]; simpl; [tauto |].
  intros [Hb | Hin].
  - exists b. rewrite Hb, eqb_refl. now split.
  - destruct (Np.eqb (wave_direction b) h); [now exists b |]. now apply IH.
Qed.

Lemma symmetry_loop_run (opposite : bool) (base : list Slice) (om : list R) (dt : dtype)
      (md : mode_value) :
  forall (todo : list R) (acc : list Slice),
    incl todo (map wave_direction base) ->
    symmetry_loop opposite (map wave_direction base) todo
                  (mkRao (mkDataset om (base ++ acc) dt) md)
    = (Ok tt, mkRao (mkDataset om (base ++ acc ++ additions opposite base todo) dt) md).
Proof.
  induction todo as [| direction rest IH]; intros acc Hincl; simpl.
  - now rewrite app_nil_r.
  - assert (Hrest : incl rest (map wave_direction base))
      by (intros x Hx; apply Hincl; now right).
    fold (mirror direction).
    destruct (Np.contains (map wave_direction base) (mirror direction)).
    + now apply IH.
    + destruct (find_direction_app base acc direction) as [sym [Hb Happ]];
        [apply Hincl; now left |].
      run. unfold Xr.sel_wave_direction; simpl. rewrite Happ, Hb.
      unfold Xr.concat_wave_direction; simpl.
      rewrite <- app_assoc. rewrite (IH _ Hrest). now rewrite <- !app_assoc.
Qed.

Lemma symmetry_loop_noop (opposite : bool) (directions : list R) (self : Rao) :
  forall todo : list R,
    (forall h, In h todo -> Np.contains directions (mirror h) = true) ->
    symmetry_loop opposite directions todo self = (Ok tt, self).
Proof.
  induction todo as [| direction rest IH]; intros Hall; simpl; [reflexivity |].
  fold (mirror direction). rewrite (Hall direction) by now left.
  apply IH. intros h Hh. apply Hall. now right.
Qed.

Lemma symmetry_body_run (opposite : bool) (self : Rao) :
  symmetry_body opposite self
  = (Ok tt,
     mkRao (mkDataset (omega (_data self))
                      (Np.sort_by wave_direction
                         (slices (_data self)
                          ++ additions opposite (slices (_data self))
                                       (wave_directions (_data self))))
                      (amplitude_dtype (_data self)))
           (mode self)).
Proof.
  destruct self as [[om base dt] md]. unfold symmetry_body, wave_directions.
  unfold bind at 1. unfold get_data at 1. simpl.
  unfold bind at 1.
  pose proof (symmetry_loop_run opposite base om dt md (map wave_direction base) []
                (incl_refl _)) as Hrun.
  rewrite app_nil_r in Hrun. rewrite Hrun. reflexivity.
Qed.

Lemma add_symmetry_xz_known_mode (self : Rao) (m : MotionMode) :
  mode self = ModeOf m ->
  add_symmetry_xz self = symmetry_body (opposite_mode m) self.
Proof.
  intros Hm. unfold add_symmetry_xz, bind, get_mode. rewrite Hm.
  now destruct m.
Qed.

Lemma additions_In (opposite : bool) (base : list Slice) (todo : list R) (h : R) (s : Slice) :
  In h todo ->
  Np.contains (map wave_direction base) (mirror h) = false ->
  find (fun s => Np.eqb (wave_direction s) h) base = Some s ->
  In (mirrored opposite (mirror h) s) (additions opposite base todo).
Proof.
  intros Hin Hc Hf. unfold additions. apply in_flat_map.
  exists h. split; [exact Hin |]. rewrite Hc, Hf. now left.
Qed.

Lemma additions_inv (opposite : bool) (base : list Slice) (todo : list R) (s' : Slice) :
  In s' (additions opposite base todo) ->
  exists h, In h todo /\ wave_direction s' = mirror h.
Proof.
  unfold additions. rewrite in_flat_map. intros [h [Hin Hs]].
  exists h. split; [exact Hin |].
  destruct (Np.contains (map wave_direction base) (mirror h)); [contradiction |].
  destruct (find (fun s => Np.eqb (wave_direction s) h) base); [| contradiction].
  destruct Hs as [<- | []]. reflexivity.
Qed.

Lemma congruent_2pi_refl (p : R) : congruent_2pi p p.
Proof. exists 0%Z. lra. Qed.

(** C1.  On a grid with mode SWAY, ROLL or YAW, for a heading [h] of the
    grid whose mirror is not a heading of the grid, [add_symmetry_xz]
    returns and the grid then has a column at the mirror heading with the
    amplitude of the column at [h] and the phase [-phase + pi] (so
    congruent to it modulo 2 pi); with mode SURGE, HEAVE or PITCH that
    column has the amplitude and the phase of the column at [h]. *)
Theorem add_symmetry_xz_mirror_column (self : Rao) (m : MotionMode) (h : R) (s : Slice) :
  mode self = ModeOf m ->
  Xr.sel_wave_direction (_data self) h = Some s ->
  Np.contains (wave_directions (_data self)) (mirror h) = false ->
  outcome add_symmetry_xz self = Ok tt
  /\ exists s' : Slice,
      In s' (slices (_data (state_after add_symmetry_xz self)))
      /\ wave_direction s' = mirror h
      /\ amplitude s' = amplitude s
      /\ match m with
         | SWAY | ROLL | YAW =>
             phase s' = map (option_map (fun p => - p + PI)) (phase s)
             /\ Forall2 (fun p p' => cell_congruent (option_map (fun x => - x + PI) p) p')
                        (phase s) (phase s')
         | SURGE | HEAVE | PITCH => phase s' = phase s
         end.
Proof.
  intros Hm Hsel Hmirror.
  unfold outcome, state_after.
  rewrite (add_symmetry_xz_known_mode self m Hm), symmetry_body_run. simpl.
  split; [reflexivity |].
  exists (mirrored (opposite_mode m) (mirror h) s).
  assert (Hh : In h (wave_directions (_data self))).
  { unfold Xr.sel_wave_direction in Hsel. apply find_some in Hsel.
    destruct Hsel as [Hin He]. apply eqb_true in He. subst h.
    unfold wave_directions. now apply in_map. }
  split.
  - apply sort_by_In, in_or_app. right. now apply additions_In.
  - split; [reflexivity |]. split; [reflexivity |].
    destruct m; simpl; try reflexivity;
      (split; [reflexivity |]);
      induction (phase s) as [| p l IH]; simpl; constructor; try exact IH;
      destruct p; simpl; auto using congruent_2pi_refl.
Qed.

(** A roll grid with the single heading 30 degrees: the column at 330 is
    added, with the amplitude 2 and the phase [-1 + pi]. *)
Lemma add_symmetry_xz_mirror_column_witness :
  Xr.sel_wave_direction (_data grid_roll_30) 30 = Some (mkSlice 30 [Some 2] [Some 1] None)
  /\ Np.contains (wave_directions (_data grid_roll_30)) (mirror 30) = false
  /\ outcome add_symmetry_xz grid_roll_30 = Ok tt
  /\ exists s' : Slice,
      In s' (slices (_data (state_after add_symmetry_xz grid_roll_30)))
      /\ wave_direction s' = mirror 30
      /\ amplitude s' = [Some 2]
      /\ phase s' = [Some (- 1 + PI)]
      /\ Forall2 (fun p p' => cell_congruent (option_map (fun x => - x + PI) p) p')
                 [Some 1] (phase s').
Proof.
  assert (Hsel : Xr.sel_wave_direction (_data grid_roll_30) 30
                 = Some (mkSlice 30 [Some 2] [Some 1] None)).
  { unfold Xr.sel_wave_direction; simpl. now rewrite eqb_refl. }
  assert (Hc : Np.contains (wave_directions (_data grid_roll_30)) (mirror 30) = false).
  { apply contains_false. simpl. rewrite mirror_pos by lra. intros [H | []]. lra. }
  split; [exact Hsel |]. split; [exact Hc |].
  exact (add_symmetry_xz_mirror_column grid_roll_30 ROLL 30 _ eq_refl Hsel Hc).
Defined.

(** ** Symmetry: applying it twice *)

Lemma symmetry_closed (opposite : bool) (base : list Slice) (h : R) :
  Forall (fun h => 0 <= h < 360) (map wave_direction base) ->
  In h (map wave_direction
          (Np.sort_by wave_direction
             (base ++ additions opposite base (map wave_direction base)))) ->
  Np.contains
    (map wave_direction
       (Np.sort_by wave_direction
          (base ++ additions opposite base (map wave_direction base))))
    (mirror h) = true.
Proof.
  intros Hrange Hin. rewrite Forall_forall in Hrange.
  apply contains_In. apply in_map_iff in Hin. destruct Hin as [s [Hs Hin]].
  apply sort_by_In, in_app_or in Hin. destruct Hin as [Hbase | Hadd].
  - assert (Hh : In h (map wave_direction base)) by (subst h; now apply in_map).
    destruct (Np.contains (map wave_direction base) (mirror h)) eqn:Hc.
    + apply contains_In, in_map_iff in Hc. destruct Hc as [t [Ht Hint]].
      apply in_map_iff. exists t. split; [exact Ht |].
      apply sort_by_In, in_or_app. now left.
    + destruct (find_direction_app base [] h Hh) as [sym [Hf _]].
      apply in_map_iff. exists (mirrored opposite (mirror h) sym).
      split; [reflexivity |].
      apply sort_by_In, in_or_app. right. now apply additions_In.
  - apply additions_inv in Hadd. destruct Hadd as [h0 [Hh0 Hwd]].
    rewrite <- Hs, Hwd, mirror_involutive by now apply Hrange.
    apply in_map_iff in Hh0. destruct Hh0 as [t [Ht Hint]].
    apply in_map_iff. exists t. split; [exact Ht |].
    apply sort_by_In, in_or_app. now left.
Qed.

Lemma whole_degree_range (h : R) : whole_degree h -> 0 <= h < 360.
Proof.
  intros [z [[Hlo Hhi] ->]]. split; [now apply (IZR_le 0) | now apply (IZR_lt z 360)].
Qed.

(** In binary64 the mirror of the mirror of a whole number of degrees
    between 1 and 359 is that number: the additions are exact. *)
Lemma mirror_binary64_whole_degrees :
  forallb (fun z => PrimFloat.eqb (Binary64.mirror (Binary64.mirror (Binary64.of_Z z)))
                                  (Binary64.of_Z z))
          (map Z.of_nat (seq 1 359)) = true.
Proof. vm_compute. reflexivity. Qed.

(** The roll grid with the heading 30: the first application adds the
    column at 330. *)
Lemma add_symmetry_xz_roll_30 :
  wave_directions (_data (state_after add_symmetry_xz grid_roll_30)) = [30; 330].
Proof.
  assert (H330 : mirror 30 = 330) by (rewrite mirror_pos; lra).
  unfold state_after.
  rewrite (add_symmetry_xz_known_mode grid_roll_30 ROLL eq_refl), symmetry_body_run.
  unfold additions; simpl. rewrite H330.
  unfold mirrored, wave_directions. reval. reflexivity.
Qed.

(** C7.  On a grid with one of the six modes whose headings are whole
    numbers of degrees in [0, 360), [add_symmetry_xz] returns, and
    applying it a second time gives the grid the first application gave:
    no column is added and no value changes. *)
Theorem add_symmetry_xz_idempotent (self : Rao) (m : MotionMode) :
  mode self = ModeOf m ->
  Forall whole_degree (wave_directions (_data self)) ->
  outcome add_symmetry_xz self = Ok tt
  /\ (add_symmetry_xz ;; add_symmetry_xz) self = add_symmetry_xz self.
Proof.
  intros Hm Hwhole.
  assert (Hrange : Forall (fun h => 0 <= h < 360) (wave_directions (_data self))).
  { rewrite Forall_forall in *. intros h Hh. now apply whole_degree_range, Hwhole. }
  unfold outcome.
  rewrite (add_symmetry_xz_known_mode self m Hm), symmetry_body_run.
  split; [reflexivity |].
  unfold bind at 1.
  rewrite (add_symmetry_xz_known_mode self m Hm), symmetry_body_run.
  rewrite (add_symmetry_xz_known_mode _ m) by (simpl; exact Hm).
  unfold symmetry_body, bind, get_data; simpl.
  rewrite symmetry_loop_noop.
  - simpl. unfold put_data, Xr.sortby_wave_direction; simpl.
    now rewrite sort_by_idem.
  - intros h Hh. unfold wave_directions in *; simpl in *.
    now apply symmetry_closed.
Qed.

(** The roll grid with the single heading 30: the first application
    adds the column at 330, and the second leaves the grid with the
    headings 30 and 330 as it is. *)
Lemma add_symmetry_xz_idempotent_witness :
  Forall whole_degree (wave_directions (_data grid_roll_30))
  /\ wave_directions (_data (state_after add_symmetry_xz grid_roll_30)) = [30; 330]
  /\ outcome add_symmetry_xz grid_roll_30 = Ok tt
  /\ (add_symmetry_xz ;; add_symmetry_xz) grid_roll_30
     = add_symmetry_xz grid_roll_30.
Proof.
  assert (Hw : Forall whole_degree (wave_directions (_data grid_roll_30))).
  { unfold wave_directions; simpl. apply Forall_cons; [| apply Forall_nil].
    exists 30%Z. split; [lia | reflexivity]. }
  split; [exact Hw |]. split; [exact add_symmetry_xz_roll_30 |].
  exact (add_symmetry_xz_idempotent grid_roll_30 ROLL eq_refl Hw).
Defined.

(** The grid with the single heading -30: the first application adds
    the heading 30, the second adds 330, the mirror of 30.  And a
    heading that is not a whole number of degrees: in binary64 the
    mirror of the mirror of 0.1 is above 0.1, so that the second
    application does not find the heading 0.1 whose mirror it looks for. *)
Lemma add_symmetry_xz_twice_negative_heading :
  wave_directions (_data (state_after add_symmetry_xz grid_minus_30)) = [-30; 30]
  /\ wave_directions
       (_data (state_after (add_symmetry_xz ;; add_symmetry_xz) grid_minus_30))
     = [-30; 30; 330]
  /\ (add_symmetry_xz ;; add_symmetry_xz) grid_minus_30 <> add_symmetry_xz grid_minus_30
  /\ PrimFloat.eqb (Binary64.mirror (Binary64.mirror Binary64.tenth)) Binary64.tenth = false
  /\ PrimFloat.ltb Binary64.tenth (Binary64.mirror (Binary64.mirror Binary64.tenth)) = true.
Proof.
  assert (H30 : mirror (-30) = 30) by (rewrite mirror_neg; lra).
  assert (H330 : mirror 30 = 330) by (rewrite mirror_pos; lra).
  assert (Hfirst : add_symmetry_xz grid_minus_30
                   = (Ok tt,
                      mkRao (mkDataset [1] [mkSlice (-30) [Some 2] [Some 0] None;
                                            mkSlice 30 [Some 2] [Some 0] None] Float64)
                            (ModeOf HEAVE))).
  { rewrite (add_symmetry_xz_known_mode grid_minus_30 HEAVE eq_refl), symmetry_body_run.
    unfold additions; simpl. rewrite H30.
    unfold mirrored. reval. reflexivity. }
  assert (Hsecond : (add_symmetry_xz ;; add_symmetry_xz) grid_minus_30
                    = (Ok tt,
                       mkRao (mkDataset [1] [mkSlice (-30) [Some 2] [Some 0] None;
                                             mkSlice 30 [Some 2] [Some 0] None;
                                             mkSlice 330 [Some 2] [Some 0] None] Float64)
                             (ModeOf HEAVE))).
  { unfold bind at 1. rewrite Hfirst.
    rewrite (add_symmetry_xz_known_mode
               (mkRao (mkDataset [1] [mkSlice (-30) [Some 2] [Some 0] None;
                                      mkSlice 30 [Some 2] [Some 0] None] Float64)
                      (ModeOf HEAVE)) HEAVE eq_refl), symmetry_body_run.
    unfold additions; simpl. rewrite H30, H330.
    unfold mirrored. reval. reflexivity. }
  unfold state_after. rewrite Hfirst, Hsecond. simpl.
  split; [reflexivity |]. split; [reflexivity |].
  split; [intros Heq; inversion Heq |].
  split; reflexivity.
Qed.

(** ** Evaluation at a point of the grid *)

Lemma sel_wave_direction_In (d : Dataset) (h : R) (s : Slice) :
  Xr.sel_wave_direction d h = Some s ->
  In s (slices d) /\ wave_direction s = h /\ Np.contains (wave_directions d) h = true.
Proof.
  unfold Xr.sel_wave_direction. intros Hf. apply find_some in Hf.
  destruct Hf as [Hin He]. apply eqb_true in He.
  repeat split; try assumption.
  apply contains_In. unfold wave_directions. subst h. now apply in_map.
Qed.

Lemma index_of_contains (l : list R) (x : R) (j : nat) :
  Xr.index_of x l = Some j -> Np.contains l x = true.
Proof.
  revert j. induction l as [| y l IH]; intros j; simpl; [discriminate |].
  destruct (Np.eqb y x); [reflexivity |]. simpl.
  destruct (Xr.index_of x l) as [k |]; [| discriminate]. intros _. now apply (IH k).
Qed.

Lemma find_map_direction (g : Slice -> Slice) (l : list Slice) (h : R) :
  (forall s, wave_direction (g s) = wave_direction s) ->
  find (fun s => Np.eqb (wave_direction s) h) (map g l)
  = option_map g (find (fun s => Np.eqb (wave_direction s) h) l).
Proof.
  intros Hg. induction l as [| a l IH]; simpl; [reflexivity |].
  rewrite Hg. now destruct (Np.eqb (wave_direction a) h).
Qed.

(** The run of [get_value] at a point of the grid: neither axis is
    regridded, and [self['complex_unit']] leaves its channel behind. *)
Lemma get_value_run (self : Rao) (w h : R) (s : Slice) (j : nat) (a p : cell) :
  Xr.sel_wave_direction (_data self) h = Some s ->
  Xr.index_of w (omega (_data self)) = Some j ->
  nth_error (amplitude s) j = Some a ->
  nth_error (phase s) j = Some p ->
  get_value w h self
  = (Ok (cmul (Np.exp_1j p) a), mkRao (_complex_unit_add (_data self)) (mode self)).
Proof.
  intros Hsel Hidx Ha Hp.
  destruct (sel_wave_direction_In _ _ _ Hsel) as [_ [_ Hch]].
  pose proof (index_of_contains _ _ _ Hidx) as Hcw.
  unfold get_value, add_direction, add_frequency.
  run. rewrite Hch. simpl. rewrite Hcw. simpl.
  unfold Xr.sel_point. rewrite Hsel, Hidx, Ha.
  unfold __getitem__complex_unit. run.
  unfold Xr.sel_wave_direction in *. simpl.
  rewrite (find_map_direction _ _ h) by reflexivity.
  rewrite Hsel. simpl. rewrite Hidx.
  rewrite nth_error_map, Hp. reflexivity.
Qed.

(** C3.  For a heading and a frequency that are labels of the grid,
    [get_value] returns [amplitude * exp(i * phase)] of that point; no
    axis is regridded and the axes, every amplitude, every phase and the
    mode are as before; the grid then holds the channel
    [complex_unit = exp(i * phase)]. *)
Theorem get_value_exact_point (self : Rao) (w h : R) (s : Slice) (j : nat) (a p : cell) :
  Xr.sel_wave_direction (_data self) h = Some s ->
  Xr.index_of w (omega (_data self)) = Some j ->
  nth_error (amplitude s) j = Some a ->
  nth_error (phase s) j = Some p ->
  outcome (get_value w h) self = Ok (cmul (Np.exp_1j p) a)
  /\ let d := _data self in
     let d' := _data (state_after (get_value w h) self) in
     omega d' = omega d
     /\ wave_directions d' = wave_directions d
     /\ map amplitude (slices d') = map amplitude (slices d)
     /\ map phase (slices d') = map phase (slices d)
     /\ mode (state_after (get_value w h) self) = mode self
     /\ Forall (fun s' => complex_unit s' = Some (map Np.exp_1j (phase s'))) (slices d').
Proof.
  intros Hsel Hidx Ha Hp. unfold outcome, state_after.
  rewrite (get_value_run self w h s j a p Hsel Hidx Ha Hp). simpl.
  split; [reflexivity |].
  unfold wave_directions; simpl. rewrite !map_map. simpl.
  repeat split.
  apply Forall_forall. intros s' Hs'. apply in_map_iff in Hs'.
  destruct Hs' as [t [<- _]]. reflexivity.
Qed.

Lemma init_sel_0 :
  Xr.sel_wave_direction (_data __init__) 0 = Some (mkSlice 0 [Some 0; Some 0] [Some 0; Some 0] None).
Proof. unfold Xr.sel_wave_direction; simpl. now rewrite eqb_refl. Qed.

Lemma init_index_4 : Xr.index_of 4 (omega (_data __init__)) = Some 1%nat.
Proof. simpl. unfold Np.eqb. rcases. now simpl. Qed.

(** The fresh grid at heading 0 and frequency 4. *)
Lemma get_value_exact_point_witness :
  Xr.sel_wave_direction (_data __init__) 0 = Some (mkSlice 0 [Some 0; Some 0] [Some 0; Some 0] None)
  /\ Xr.index_of 4 (omega (_data __init__)) = Some 1%nat
  /\ outcome (get_value 4 0) __init__ = Ok (cmul (Np.exp_1j (Some 0)) (Some 0)).
Proof.
  split; [exact init_sel_0 |]. split; [exact init_index_4 |].
  exact (proj1 (get_value_exact_point __init__ 4 0 _ 1%nat (Some 0) (Some 0)
                  init_sel_0 init_index_4 eq_refl eq_refl)).
Defined.

(** On the fresh grid [get_value(4, 0)] returns, and the grid, which held
    no [complex_unit] channel, holds one afterwards: it is not the grid
    it was. *)
Lemma get_value_leaves_complex_unit :
  outcome (get_value 4 0) __init__ = Ok (Some (0, 0))
  /\ Forall (fun s => complex_unit s = None) (slices (_data __init__))
  /\ Forall (fun s => complex_unit s = Some [Some (1, 0); Some (1, 0)])
            (slices (_data (state_after (get_value 4 0) __init__)))
  /\ state_after (get_value 4 0) __init__ <> __init__.
Proof.
  unfold outcome, state_after.
  rewrite (get_value_run __init__ 4 0 _ 1%nat (Some 0) (Some 0)
             init_sel_0 init_index_4 eq_refl eq_refl).
  simpl. rewrite cos_0, sin_0, !Rmult_0_r.
  repeat split.
  - repeat constructor.
  - repeat constructor.
  - intros Heq. inversion Heq.
Qed.

(** ** Polar form: modulus and angle *)

Lemma abs_polar (a p : R) :
  0 <= a -> sqrt (a * cos p * (a * cos p) + a * sin p * (a * sin p)) = a.
Proof.
  intros Ha. pose proof (sin2_cos2 p) as H. unfold Rsqr in H.
  replace (a * cos p * (a * cos p) + a * sin p * (a * sin p))
    with (a * a * (sin p * sin p + cos p * cos p)) by ring.
  rewrite H, Rmult_1_r. now apply sqrt_square.
Qed.

Lemma arctan2_origin : Np.arctan2 0 0 = 0.
Proof. unfold Np.arctan2. rcases; reflexivity. Qed.

Lemma arctan2_right (a q : R) :
  0 < a -> - (PI / 2) < q < PI / 2 ->
  Np.arctan2 (a * sin q) (a * cos q) = q.
Proof.
  intros Ha Hq. pose proof (cos_gt_0 q (proj1 Hq) (proj2 Hq)) as Hc.
  assert (Hx : 0 < a * cos q) by now apply Rmult_lt_0_compat.
  unfold Np.arctan2. destruct (Rlt_dec 0 (a * cos q)); [| contradiction].
  replace (a * sin q / (a * cos q)) with (tan q) by (unfold tan; field; lra).
  now apply atan_tan.
Qed.

Lemma arctan2_left (a q : R) :
  0 < a -> - (PI / 2) < q < PI / 2 ->
  Np.arctan2 (a * - sin q) (a * - cos q)
  = if Rle_dec (sin q) 0 then q + PI else q - PI.
Proof.
  intros Ha Hq. pose proof (cos_gt_0 q (proj1 Hq) (proj2 Hq)) as Hc.
  assert (Hx : a * - cos q < 0) by nra.
  unfold Np.arctan2.
  destruct (Rlt_dec 0 (a * - cos q)); [lra |].
  destruct (Rlt_dec (a * - cos q) 0); [| contradiction].
  replace (a * - sin q / (a * - cos q)) with (tan q) by (unfold tan; field; lra).
  rewrite atan_tan by exact Hq.
  destruct (Rle_dec 0 (a * - sin q)), (Rle_dec (sin q) 0); try reflexivity; nra.
Qed.

Lemma arctan2_up (a : R) : 0 < a -> Np.arctan2 (a * 1) (a * 0) = PI / 2.
Proof.
  intros Ha. unfold Np.arctan2. rewrite Rmult_0_r, Rmult_1_r. rcases; reflexivity.
Qed.

Lemma arctan2_down (a : R) : 0 < a -> Np.arctan2 (a * -1) (a * 0) = - (PI / 2).
Proof.
  intros Ha. unfold Np.arctan2. rewrite Rmult_0_r. rcases; reflexivity.
Qed.

(** The angle of [a * exp(i p)] is [p] when [p] lies in (-pi, pi]. *)
Lemma arctan2_polar_principal (a p : R) :
  0 < a -> - PI < p <= PI -> Np.arctan2 (a * sin p) (a * cos p) = p.
Proof.
  intros Ha Hp. pose proof PI_RGT_0 as Hpi.
  destruct (Rlt_dec p (- (PI / 2))) as [Hlow | Hlow].
  - (* third quadrant: p = q - pi with q in (0, pi/2) *)
    pose proof (neg_sin p) as Hs. pose proof (neg_cos p) as Hc.
    replace (sin p) with (- sin (p + PI)) by lra.
    replace (cos p) with (- cos (p + PI)) by lra.
    rewrite arctan2_left by (try exact Ha; lra).
    assert (0 < sin (p + PI)) by (apply sin_gt_0; lra).
    destruct (Rle_dec (sin (p + PI)) 0); lra.
  - destruct (Req_dec_T p (- (PI / 2))) as [-> | Hne1].
    + rewrite sin_neg, cos_neg, sin_PI2, cos_PI2. now apply arctan2_down.
    + destruct (Rlt_dec p (PI / 2)) as [Hmid | Hmid].
      * apply arctan2_right; [exact Ha | lra].
      * destruct (Req_dec_T p (PI / 2)) as [-> | Hne2].
        -- rewrite sin_PI2, cos_PI2. now apply arctan2_up.
        -- (* second quadrant: p = q + pi with q in (-pi/2, 0] *)
           pose proof (neg_sin (p - PI)) as Hs. pose proof (neg_cos (p - PI)) as Hc.
           replace (p - PI + PI) with p in Hs, Hc by ring.
           rewrite Hs, Hc.
           rewrite arctan2_left by (try exact Ha; lra).
           assert (sin (p - PI) <= 0).
           { destruct (Req_dec_T p PI) as [-> | Hne3].
             - replace (PI - PI) with 0 by ring. rewrite sin_0. lra.
             - left. apply sin_lt_0_var; lra. }
           destruct (Rle_dec (sin (p - PI)) 0); lra.
Qed.

Lemma sin_cos_period_Z (x : R) (k : Z) :
  sin (x + 2 * IZR k * PI) = sin x /\ cos (x + 2 * IZR k * PI) = cos x.
Proof.
  destruct (Z.le_gt_cases 0 k) as [Hk | Hk].
  - rewrite <- (Z2Nat.id k Hk), <- INR_IZR_INZ.
    split; [apply sin_period | apply cos_period].
  - assert (Hn : (0 <= - k)%Z) by lia.
    pose proof (sin_period (x + 2 * IZR k * PI) (Z.to_nat (- k))) as Hs.
    pose proof (cos_period (x + 2 * IZR k * PI) (Z.to_nat (- k))) as Hc.
    rewrite INR_IZR_INZ, (Z2Nat.id _ Hn), opp_IZR in Hs, Hc.
    replace (x + 2 * IZR k * PI + 2 * - IZR k * PI) with x in Hs, Hc by ring.
    now split.
Qed.

(** Every angle has a representative in (-pi, pi]. *)
Lemma principal_representative (p : R) :
  exists k : Z, - PI < p + 2 * IZR k * PI <= PI.
Proof.
  pose proof PI_RGT_0 as Hpi.
  destruct (archimed ((- p - PI) / (2 * PI))) as [Hup Hlow].
  exists (up ((- p - PI) / (2 * PI))).
  set (m := IZR (up ((- p - PI) / (2 * PI)))) in *.
  assert (Hr : (- p - PI) / (2 * PI) * (2 * PI) = - p - PI) by (field; lra).
  split; nra.
Qed.

(** The angle of [a * exp(i p)] is [p] up to full turns. *)
Lemma arctan2_polar (a p : R) :
  0 < a -> congruent_2pi p (Np.arctan2 (a * sin p) (a * cos p)).
Proof.
  intros Ha. destruct (principal_representative p) as [k Hk].
  exists k. destruct (sin_cos_period_Z p k) as [Hs Hc].
  rewrite <- Hs, <- Hc. now apply arctan2_polar_principal.
Qed.

(** ** The flattened representation *)

Lemma zip_with_map_diag {A B C : Type} (g : A -> B -> C) (f : A -> B) (l : list A) :
  zip_with g l (map f l) = map (fun x => g x (f x)) l.
Proof.
  unfold zip_with. induction l as [| a l IH]; simpl; [reflexivity | now rewrite IH].
Qed.

Lemma nth_error_zip_with {A B C : Type} (g : A -> B -> C) :
  forall (l : list A) (l' : list B) (j : nat) (x : A) (y : B),
    nth_error l j = Some x -> nth_error l' j = Some y ->
    nth_error (zip_with g l l') j = Some (g x y).
Proof.
  unfold zip_with.
  induction l as [| a l IH]; intros l' j x y Hx Hy; destruct j, l'; simpl in *;
    try discriminate.
  - now inversion Hx; inversion Hy.
  - now apply IH.
Qed.

Lemma nocomplex_round_trip_run (m : MotionMode) (self : Rao) :
  nocomplex_round_trip m self
  = (Ok tt,
     mkRao (mkDataset (omega (_data self)) (map round_trip_slice (slices (_data self)))
                      Float64)
           (ModeOf m)).
Proof.
  unfold nocomplex_round_trip, to_xarray_nocomplex, __getitem__complex_unit.
  run. unfold from_xarray_nocomplex. run.
  rewrite zip_with_map_diag, map_map. reflexivity.
Qed.

Lemma round_trip_cell (s : Slice) (j : nat) (a p : R) :
  nth_error (amplitude s) j = Some (Some a) ->
  nth_error (phase s) j = Some (Some p) ->
  nth_error (amplitude (round_trip_slice s)) j
  = Some (Some (sqrt (a * cos p * (a * cos p) + a * sin p * (a * sin p))))
  /\ nth_error (phase (round_trip_slice s)) j
     = Some (Some (Np.arctan2 (a * sin p) (a * cos p))).
Proof.
  intros Ha Hp. unfold round_trip_slice; simpl.
  assert (Hz : nth_error (zip_with Np.rmul (amplitude s) (map Np.exp_1j (phase s))) j
               = Some (Some (a * cos p, a * sin p))).
  { apply (nth_error_zip_with Np.rmul _ _ j (Some a) (Some (cos p, sin p)) Ha).
    now rewrite nth_error_map, Hp. }
  assert (Hc : nth_error
                 (zip_with Np.of_parts
                    (map Np.real (zip_with Np.rmul (amplitude s) (map Np.exp_1j (phase s))))
                    (map Np.imag (zip_with Np.rmul (amplitude s) (map Np.exp_1j (phase s)))))
                 j
               = Some (Some (a * cos p, a * sin p))).
  { apply (nth_error_zip_with Np.of_parts _ _ j (Some (a * cos p)) (Some (a * sin p)));
      now rewrite nth_error_map, Hz. }
  split; now rewrite nth_error_map, Hc.
Qed.

(** C6.  Exporting a grid to [real = amplitude cos(phase)],
    [imag = amplitude sin(phase)] and importing it back keeps both axes
    and every amplitude that is not negative; where the amplitude is
    positive the phase comes back equal modulo 2 pi, and equal when it
    lies in (-pi, pi]; where the amplitude is 0 the phase comes back 0. *)
Theorem nocomplex_round_trip_spec (m : MotionMode) (self : Rao) :
  outcome (nocomplex_round_trip m) self = Ok tt
  /\ let d := _data self in
     let d' := _data (state_after (nocomplex_round_trip m) self) in
     omega d' = omega d
     /\ wave_directions d' = wave_directions d
     /\ forall (i j : nat) (a p : R),
         cell_at amplitude d i j = Some (Some a) ->
         cell_at phase d i j = Some (Some p) ->
         0 <= a ->
         cell_at amplitude d' i j = Some (Some a)
         /\ exists p' : R,
             cell_at phase d' i j = Some (Some p')
             /\ (0 < a -> congruent_2pi p p')
             /\ (0 < a -> - PI < p <= PI -> p' = p)
             /\ (a = 0 -> p' = 0).
Proof.
  unfold outcome, state_after. rewrite nocomplex_round_trip_run. simpl.
  split; [reflexivity |]. split; [reflexivity |]. split.
  - unfold wave_directions; simpl. now rewrite map_map.
  - intros i j a p. unfold cell_at; simpl. rewrite nth_error_map.
    destruct (nth_error (slices (_data self)) i) as [s |]; simpl; [| discriminate].
    intros Ha Hp Hnn.
    destruct (round_trip_cell s j a p Ha Hp) as [Hamp Hph].
    unfold round_trip_slice in Hamp, Hph; simpl in Hamp, Hph.
    rewrite Hamp, Hph. split.
    + now rewrite abs_polar.
    + exists (Np.arctan2 (a * sin p) (a * cos p)).
      split; [reflexivity |]. split; [| split].
      * now apply arctan2_polar.
      * now apply arctan2_polar_principal.
      * intros ->. rewrite !Rmult_0_l. apply arctan2_origin.
Qed.

(** The grid with a zero amplitude and a phase of a full turn: the two
    phases 1 and 2 pi both come back as 0. *)
Lemma nocomplex_round_trip_loses_phase :
  let d := _data grid_polar_edge in
  let d' := _data (state_after (nocomplex_round_trip SURGE) grid_polar_edge) in
  cell_at amplitude d 0 0 = Some (Some 0)
  /\ cell_at phase d 0 0 = Some (Some 1)
  /\ cell_at phase d' 0 0 = Some (Some 0)
  /\ cell_at amplitude d 0 1 = Some (Some 1)
  /\ cell_at phase d 0 1 = Some (Some (2 * PI))
  /\ cell_at phase d' 0 1 = Some (Some 0)
  /\ map phase (slices d') <> map phase (slices d).
Proof.
  unfold state_after. rewrite nocomplex_round_trip_run.
  unfold cell_at. simpl.
  rewrite sin_2PI, cos_2PI, !Rmult_0_l, !Rmult_1_l, arctan2_origin.
  assert (H01 : Np.arctan2 0 1 = 0).
  { unfold Np.arctan2. destruct (Rlt_dec 0 1); [| lra].
    unfold Rdiv. rewrite Rmult_0_l. apply atan_0. }
  rewrite H01. repeat split.
  intros Heq. inversion Heq. lra.
Qed.

(** ** Regridding the frequency axis *)

Lemma regrid_omega_run (new_omega : list R) (self : Rao) :
  regrid_omega new_omega self
  = (Ok tt, mkRao (regrid_omega_data new_omega (_data self)) (mode self)).
Proof. reflexivity. Qed.

Lemma regrid_direction_run (new_headings : list R) (self : Rao) :
  regrid_direction new_headings self
  = (Ok tt, mkRao (regrid_direction_data new_headings (_data self)) (mode self)).
Proof. reflexivity. Qed.

Lemma expand_omega_directions (d : Dataset) (new_omega : list R) :
  wave_directions (Helpers.expand_omega_dim_const d new_omega) = wave_directions d.
Proof.
  unfold Helpers.expand_omega_dim_const.
  destruct new_omega as [| w ws]; [reflexivity |].
  destruct (Xr.index_of (Np.min (omega d)) (omega d)); [| reflexivity].
  destruct (Xr.index_of (Np.max (omega d)) (omega d)); [| reflexivity].
  unfold wave_directions; simpl. now rewrite map_map.
Qed.

(** C8.  For target frequencies that are not empty, [regrid_omega]
    returns and leaves a grid whose frequency axis is the list of target
    frequencies in the order they were given, so in ascending order when
    they were given in ascending order; the heading axis is as before. *)
Theorem regrid_omega_axes (new_omega : list R) (self : Rao) :
  new_omega <> [] ->
  outcome (regrid_omega new_omega) self = Ok tt
  /\ omega (_data (state_after (regrid_omega new_omega) self)) = new_omega
  /\ wave_directions (_data (state_after (regrid_omega new_omega) self))
     = wave_directions (_data self)
  /\ (ascending (fun x => x) new_omega ->
      omega (_data (state_after (regrid_omega new_omega) self)) = Np.sort new_omega).
Proof.
  intros _. unfold outcome, state_after. rewrite regrid_omega_run. simpl.
  repeat split.
  - unfold wave_directions; simpl. rewrite !map_map. simpl.
    change (map (fun s => wave_direction s)
                (slices (Helpers.expand_omega_dim_const (_data self) new_omega)))
      with (wave_directions (Helpers.expand_omega_dim_const (_data self) new_omega)).
    apply expand_omega_directions.
  - intros Hasc. unfold Np.sort. now rewrite sort_by_fixes_ascending.
Qed.

(** The targets 1, 3 on the fresh grid, whose axis is [0, 4]: the axis
    becomes [1, 3], which is the sorted list, and the headings stay. *)
Lemma regrid_omega_axes_witness :
  [1; 3] <> []
  /\ ascending (fun x => x) [1; 3]
  /\ outcome (regrid_omega [1; 3]) __init__ = Ok tt
  /\ omega (_data (state_after (regrid_omega [1; 3]) __init__)) = [1; 3]
  /\ wave_directions (_data (state_after (regrid_omega [1; 3]) __init__)) = [0; 180]
  /\ omega (_data (state_after (regrid_omega [1; 3]) __init__)) = Np.sort [1; 3].
Proof.
  assert (Hne : [1; 3] <> []) by discriminate.
  assert (Hasc : ascending (fun x : R => x) [1; 3]).
  { unfold ascending. apply SSorted_cons; [apply SSorted_cons; [apply SSorted_nil |] |].
    - apply Forall_nil.
    - apply Forall_cons; [lra | apply Forall_nil]. }
  destruct (regrid_omega_axes [1; 3] __init__ Hne) as [Hok [Hom [Hwd Hsort]]].
  split; [exact Hne |]. split; [exact Hasc |]. split; [exact Hok |].
  split; [exact Hom |]. split; [exact Hwd |]. exact (Hsort Hasc).
Defined.

(** The targets 2, 1 on the fresh grid: the axis is [2, 1], not [1, 2]. *)
Lemma regrid_omega_keeps_given_order :
  omega (_data (state_after (regrid_omega [2; 1]) __init__)) = [2; 1]
  /\ Np.sort [2; 1] = [1; 2]
  /\ omega (_data (state_after (regrid_omega [2; 1]) __init__)) <> Np.sort [2; 1].
Proof.
  assert (Hs : Np.sort [2; 1] = [1; 2]).
  { unfold Np.sort; simpl. rcases; reflexivity. }
  rewrite Hs. unfold state_after. rewrite regrid_omega_run. simpl.
  repeat split. intros Heq. inversion Heq. lra.
Qed.

(** ** Amplitudes are never negative *)

Lemma lerp_cell_nonneg (x0 : R) (y0 : cell) (x1 : R) (y1 : cell) (x : R) :
  x0 <= x <= x1 -> nonneg_cell y0 -> nonneg_cell y1 ->
  nonneg_cell (Xr.lerp_cell x0 y0 x1 y1 x).
Proof.
  intros Hx H0 H1. unfold Xr.lerp_cell.
  destruct y0 as [a |], y1 as [b |]; simpl in *; try exact I.
  destruct (Req_dec_T x0 x1) as [He | Hne]; simpl; [exact I |].
  assert (Hd : 0 < x1 - x0) by lra.
  replace ((b - a) / (x1 - x0) * (x - x0) + a)
    with ((b * (x - x0) + a * (x1 - x)) / (x1 - x0)) by (field; lra).
  apply Rmult_le_pos; [nra | left; now apply Rinv_0_lt_compat].
Qed.

Section InterpInvariant.
Variable V : Type.
Variable lerp : R -> V -> R -> V -> R -> V.
Variable P : V -> Prop.
Hypothesis lerp_keeps :
  forall x0 y0 x1 y1 x, x0 <= x <= x1 -> P y0 -> P y1 -> P (lerp x0 y0 x1 y1 x).

Lemma interp_sorted_keeps (x : R) :
  forall (knots : list (R * V)) (v : V),
    Forall (fun k => P (snd k)) knots ->
    match knots with
    | k :: _ => fst k <= x
    | [] => True
    end ->
    Xr.interp_sorted lerp knots x = Some v -> P v.
Proof.
  induction knots as [| [x0 y0] rest IH]; intros v Hall Hfirst; simpl; [discriminate |].
  destruct rest as [| [x1 y1] rest']; [discriminate |].
  inversion Hall as [| ? ? H0 Hrest]; subst. inversion Hrest as [| ? ? H1 _]; subst.
  simpl in *. destruct (Rle_dec x x1) as [Hle | Hgt].
  - intros Hv. inversion Hv; subst. now apply lerp_keeps.
  - intros Hv. apply (IH v Hrest); [lra | exact Hv].
Qed.

Lemma interp1d_keeps (xs : list R) (ys : list V) (x : R) (v : V) :
  Forall P ys -> Xr.interp1d lerp xs ys x = Some v -> P v.
Proof.
  intros Hys. unfold Xr.interp1d.
  assert (Hall : Forall (fun k => P (snd k)) (Np.sort_by fst (combine xs ys))).
  { apply Forall_forall. intros [kx ky] Hk. apply sort_by_In in Hk.
    apply in_combine_r in Hk. rewrite Forall_forall in Hys. now apply Hys. }
  destruct (Np.sort_by fst (combine xs ys)) as [| [x0 y0] rest] eqn:Hk; [discriminate |].
  destruct (Rlt_dec x x0) as [Hlt | Hge]; [discriminate |].
  apply interp_sorted_keeps; [exact Hall | simpl; lra].
Qed.
End InterpInvariant.

Lemma interp_row_nonneg (xs : list R) (row : list cell) (targets : list R) :
  Forall nonneg_cell row ->
  Forall nonneg_cell (Xr.interp_row Xr.lerp_cell xs row targets).
Proof.
  intros Hrow. unfold Xr.interp_row. apply Forall_forall. intros c Hc.
  apply in_map_iff in Hc. destruct Hc as [x [<- _]].
  destruct (Xr.interp1d _ _ _ _) as [v |] eqn:Hv; simpl; [| exact I].
  apply (interp1d_keeps _ Xr.lerp_cell nonneg_cell lerp_cell_nonneg xs row x v Hrow Hv).
Qed.

Lemma lerp_slice_nonneg (x0 : R) (s0 : Slice) (x1 : R) (s1 : Slice) (x : R) :
  x0 <= x <= x1 ->
  Forall nonneg_cell (amplitude s0) -> Forall nonneg_cell (amplitude s1) ->
  Forall nonneg_cell (amplitude (Xr.lerp_slice x0 s0 x1 s1 x)).
Proof.
  intros Hx H0 H1. simpl. unfold Xr.lerp_row.
  rewrite Forall_forall in *. intros c Hc. apply in_map_iff in Hc.
  destruct Hc as [[a b] [<- Hab]]. simpl.
  apply lerp_cell_nonneg; [exact Hx | |].
  - apply H0. now apply in_combine_l in Hab.
  - apply H1. now apply in_combine_r in Hab.
Qed.

Lemma nth_nonneg (i : nat) (row : list cell) :
  Forall nonneg_cell row -> nonneg_cell (nth i row None).
Proof.
  intros Hrow. destruct (nth_in_or_default i row None) as [Hin | ->]; [| exact I].
  rewrite Forall_forall in Hrow. now apply Hrow.
Qed.

Lemma expand_row_nonneg (lo hi : bool) (ilo ihi : nat) (row : list cell) :
  Forall nonneg_cell row ->
  Forall nonneg_cell (Helpers.expand_row lo hi ilo ihi row).
Proof.
  intros Hrow. unfold Helpers.expand_row.
  apply Forall_app. split.
  - destruct lo; constructor; [now apply nth_nonneg | constructor].
  - apply Forall_app. split; [exact Hrow |].
    destruct hi; constructor; [now apply nth_nonneg | constructor].
Qed.

(** A map over the slices that keeps each amplitude row free of
    negative numbers keeps the grid so. *)
Lemma amplitude_nonneg_map (g : Slice -> Slice) (om om' : list R) (dt dt' : dtype)
      (l : list Slice) :
  (forall s, Forall nonneg_cell (amplitude s) -> Forall nonneg_cell (amplitude (g s))) ->
  amplitude_nonneg (mkDataset om l dt) ->
  amplitude_nonneg (mkDataset om' (map g l) dt').
Proof.
  unfold amplitude_nonneg; simpl. intros Hg Hl.
  rewrite Forall_forall in *. intros s Hs. apply in_map_iff in Hs.
  destruct Hs as [t [<- Ht]]. apply Hg. now apply Hl.
Qed.

Lemma amplitude_nonneg_eta (d : Dataset) :
  amplitude_nonneg d <-> amplitude_nonneg (mkDataset (omega d) (slices d) (amplitude_dtype d)).
Proof. now destruct d. Qed.

Lemma expand_omega_nonneg (d : Dataset) (new_omega : list R) :
  amplitude_nonneg d -> amplitude_nonneg (Helpers.expand_omega_dim_const d new_omega).
Proof.
  intros Hd. unfold Helpers.expand_omega_dim_const.
  destruct new_omega as [| w ws]; [exact Hd |].
  destruct (Xr.index_of (Np.min (omega d)) (omega d)); [| exact Hd].
  destruct (Xr.index_of (Np.max (omega d)) (omega d)); [| exact Hd].
  apply (amplitude_nonneg_map _ (omega d)
         _ (amplitude_dtype d)); [| now apply amplitude_nonneg_eta].
  intros s Hs. simpl. now apply expand_row_nonneg.
Qed.

Lemma expand_direction_nonneg (d : Dataset) :
  amplitude_nonneg d -> amplitude_nonneg (Helpers.expand_direction_to_full_range d).
Proof.
  intros Hd. unfold Helpers.expand_direction_to_full_range.
  destruct (Xr.sel_wave_direction d (Np.min (wave_directions d))) as [lowest |] eqn:Hlo;
    [| exact Hd].
  destruct (Xr.sel_wave_direction d (Np.max (wave_directions d))) as [highest |] eqn:Hhi;
    [| exact Hd].
  apply sel_wave_direction_In in Hlo, Hhi.
  destruct Hlo as [Hlo _], Hhi as [Hhi _].
  unfold amplitude_nonneg in *; simpl.
  pose proof Hd as Hd'. rewrite Forall_forall in Hd'.
  apply Forall_app. split.
  - destruct (Np.contains (wave_directions d) (Np.max (wave_directions d) - 360));
      constructor; [| constructor]. simpl. now apply Hd'.
  - apply Forall_app. split; [exact Hd |].
    destruct (Np.contains (wave_directions d) (Np.min (wave_directions d) + 360));
      constructor; [| constructor]. simpl. now apply Hd'.
Qed.

Lemma regrid_omega_data_nonneg (new_omega : list R) (d : Dataset) :
  amplitude_nonneg d -> amplitude_nonneg (regrid_omega_data new_omega d).
Proof.
  intros Hd. apply (expand_omega_nonneg d new_omega) in Hd.
  unfold regrid_omega_data, _complex_unit_delete, _complex_unit_to_phase,
    Xr.interp_omega, _complex_unit_add; simpl.
  rewrite !map_map. simpl.
  apply (amplitude_nonneg_map _ (omega (Helpers.expand_omega_dim_const d new_omega))
         _ (amplitude_dtype (Helpers.expand_omega_dim_const d new_omega)));
    [| now apply amplitude_nonneg_eta].
  intros s Hs. simpl. now apply interp_row_nonneg.
Qed.

Lemma repeat_nan_nonneg (n : nat) : Forall nonneg_cell (repeat None n).
Proof. induction n; simpl; constructor; [exact I | assumption]. Qed.

Lemma interp_wave_direction_nonneg (d : Dataset) (new_headings : list R) :
  amplitude_nonneg d -> amplitude_nonneg (Xr.interp_wave_direction d new_headings).
Proof.
  intros Hd. unfold amplitude_nonneg, Xr.interp_wave_direction; simpl.
  apply Forall_forall. intros s Hs. apply in_map_iff in Hs. destruct Hs as [h [<- _]].
  destruct (Xr.interp1d Xr.lerp_slice (wave_directions d) (slices d) h) as [v |] eqn:Hv.
  - apply (interp1d_keeps Slice Xr.lerp_slice
             (fun s => Forall nonneg_cell (amplitude s)) lerp_slice_nonneg
             (wave_directions d) (slices d) h v Hd Hv).
  - simpl. apply repeat_nan_nonneg.
Qed.

Lemma regrid_direction_data_nonneg (new_headings : list R) (d : Dataset) :
  amplitude_nonneg d -> amplitude_nonneg (regrid_direction_data new_headings d).
Proof.
  intros Hd. apply expand_direction_nonneg in Hd.
  assert (Hcu : amplitude_nonneg (_complex_unit_add (Helpers.expand_direction_to_full_range d))).
  { unfold _complex_unit_add.
    apply (amplitude_nonneg_map _ (omega (Helpers.expand_direction_to_full_range d))
           _ (amplitude_dtype (Helpers.expand_direction_to_full_range d)));
      [| now apply amplitude_nonneg_eta].
    intros s Hs. exact Hs. }
  apply (interp_wave_direction_nonneg _ new_headings) in Hcu.
  unfold regrid_direction_data, _complex_unit_delete, _complex_unit_to_phase; simpl.
  rewrite map_map. simpl.
  eapply (amplitude_nonneg_map _ (omega (Helpers.expand_direction_to_full_range d))).
  - intros s Hs. exact Hs.
  - exact Hcu.
Qed.

(** *** The methods *)

Create HintDb preserve.

Lemma preserves_ret {A : Type} (a : A) : preserves (ret a).
Proof. intros self H. exact H. Qed.

Lemma preserves_raise {A : Type} (e : exn) : preserves (@raise A e).
Proof. intros self H. exact H. Qed.

Lemma preserves_get_data : preserves get_data.
Proof. intros self H. exact H. Qed.

Lemma preserves_bind {A B : Type} (m : M A) (k : A -> M B) :
  preserves m -> (forall a, preserves (k a)) -> preserves (bind m k).
Proof.
  intros Hm Hk self H. unfold bind. specialize (Hm self H).
  destruct (m self) as [[a | e] self']; simpl in *; [now apply Hk | exact Hm].
Qed.

Lemma preserves_regrid_omega (new_omega : list R) : preserves (regrid_omega new_omega).
Proof.
  intros self H. rewrite regrid_omega_run. simpl. now apply regrid_omega_data_nonneg.
Qed.

Lemma preserves_regrid_direction (new_headings : list R) :
  preserves (regrid_direction new_headings).
Proof.
  intros self H. rewrite regrid_direction_run. simpl.
  now apply regrid_direction_data_nonneg.
Qed.

Lemma preserves_getitem : preserves __getitem__complex_unit.
Proof.
  intros self H. unfold __getitem__complex_unit. run.
  apply (amplitude_nonneg_map _ (omega (_data self))
         _ (amplitude_dtype (_data self))); [| now apply amplitude_nonneg_eta].
  intros s Hs. exact Hs.
Qed.

#[local] Hint Resolve preserves_ret preserves_raise preserves_get_data
  preserves_regrid_omega preserves_regrid_direction preserves_getitem : preserve.

Lemma preserves_add_direction (h : R) : preserves (add_direction h).
Proof.
  unfold add_direction. apply preserves_bind; [auto with preserve |].
  intros d. destruct (negb (Np.contains (wave_directions d) h)); auto with preserve.
Qed.

Lemma preserves_add_frequency (w : R) : preserves (add_frequency w).
Proof.
  unfold add_frequency. apply preserves_bind; [auto with preserve |].
  intros d. destruct (negb (Np.contains (omega d) w)); auto with preserve.
Qed.

#[local] Hint Resolve preserves_add_direction preserves_add_frequency : preserve.

Lemma preserves_get_value (w h : R) : preserves (get_value w h).
Proof.
  unfold get_value.
  repeat (apply preserves_bind; [auto with preserve | intros ?]).
  destruct (Xr.sel_point _ _ _ _); [| auto with preserve].
  apply preserves_bind; [auto with preserve | intros d'].
  destruct (Xr.sel_point _ _ _ _); auto with preserve.
Qed.

Lemma preserves_scale (factor : pynum) :
  preserves_from float_amplitudes (scale factor).
Proof.
  intros self Hfloat H. unfold float_amplitudes in Hfloat.
  destruct (Rlt_dec (value factor) 0) as [Hneg | Hpos].
  { unfold scale. destruct (Rlt_dec (value factor) 0); [exact H | contradiction]. }
  destruct (imul (amplitude_dtype (_data self)) factor) as [e | times] eqn:Himul.
  { unfold scale. destruct (Rlt_dec (value factor) 0); [exact H |].
    unfold bind, get_data. rewrite Himul. exact H. }
  rewrite (scale_run factor times self Hpos Himul). simpl.
  apply (amplitude_nonneg_map _ (omega (_data self))
         _ (amplitude_dtype (_data self))); [| now apply amplitude_nonneg_eta].
  intros s Hs. simpl. rewrite Forall_forall in *. intros c Hc.
  apply in_map_iff in Hc. destruct Hc as [a [<- Ha]]. specialize (Hs a Ha).
  destruct a as [a |]; simpl in *; [| exact I].
  rewrite Hfloat in Himul. destruct factor as [z | r]; simpl in *.
  - destruct (float64_holds z); [| discriminate].
    injection Himul as <-. apply Rmult_le_pos; lra.
  - injection Himul as <-. apply Rmult_le_pos; lra.
Qed.

Lemma additions_nonneg (opposite : bool) (base : list Slice) (todo : list R) :
  Forall (fun s => Forall nonneg_cell (amplitude s)) base ->
  Forall (fun s => Forall nonneg_cell (amplitude s)) (additions opposite base todo).
Proof.
  intros Hbase. unfold additions. rewrite Forall_forall in *.
  intros s Hs. apply in_flat_map in Hs. destruct Hs as [h [_ Hs]].
  destruct (Np.contains (map wave_direction base) (mirror h)); [contradiction |].
  destruct (find (fun s => Np.eqb (wave_direction s) h) base) as [sym |] eqn:Hf;
    [| contradiction].
  destruct Hs as [<- | []]. simpl. apply Hbase. now apply find_some in Hf.
Qed.

Lemma preserves_symmetry_body (opposite : bool) : preserves (symmetry_body opposite).
Proof.
  intros self H. rewrite symmetry_body_run. unfold amplitude_nonneg in *; simpl.
  apply Forall_forall. intros s Hs. apply sort_by_In in Hs.
  revert s Hs. apply Forall_forall, Forall_app. split; [exact H |].
  now apply additions_nonneg.
Qed.

Lemma preserves_add_symmetry_xz : preserves add_symmetry_xz.
Proof.
  intros self H. destruct (mode self) as [| m | tag] eqn:Hm.
  - unfold add_symmetry_xz, bind, get_mode. rewrite Hm. exact H.
  - rewrite (add_symmetry_xz_known_mode self m Hm). now apply preserves_symmetry_body.
  - unfold add_symmetry_xz, bind, get_mode. rewrite Hm. exact H.
Qed.

(** *** Construction from arrays *)

Lemma zip_with_amplitude (directions : list R) :
  forall amp ph : list (list cell),
    length amp = length directions -> length ph = length directions ->
    map amplitude
        (zip_with (fun h ap => mkSlice h (fst ap) (snd ap) None) directions (combine amp ph))
    = amp.
Proof.
  unfold zip_with.
  induction directions as [| h hs IH]; intros [| a amp] [| p ph] Ha Hp;
    simpl in *; try discriminate; try reflexivity.
  f_equal. apply IH; lia.
Qed.

Lemma shape_ok_length (directions omegas : list R) (arr : list (list cell)) :
  shape_ok directions omegas arr = true -> length arr = length directions.
Proof.
  unfold shape_ok. intros H. apply andb_true_iff in H. destruct H as [H _].
  now apply Nat.eqb_eq.
Qed.


Lemma scale_wraps_int64 :
  scale (PyInt 3) grid_int64_large
  = (Ok tt,
     mkRao (mkDataset [1] [mkSlice 0 [Some (IZR (- 2 ^ 62))] [Some 0] None] Int64)
           ModeNone).
Proof.
  rewrite (scale_run (PyInt 3) (fun a => IZR (int64_wrap (Int_part a * 3)))
             grid_int64_large).
  - simpl. rewrite Int_part_IZR. reflexivity.
  - simpl. lra.
  - reflexivity.
Qed.


(** ** Regridding the heading axis across the wrap *)

Section SortedEnds.
Variable A : Type.
Variable key : A -> R.

Lemma insert_by_app_last (a z : A) (m : list A) :
  key a <= key z ->
  Np.insert_by key a (m ++ [z]) = Np.insert_by key a m ++ [z].
Proof.
  intros Haz. induction m as [| b m IH]; simpl.
  - now destruct (Rle_dec (key a) (key z)).
  - destruct (Rle_dec (key a) (key b)); [reflexivity | now rewrite IH].
Qed.

(** An element not below the others sorts last. *)
Lemma sort_by_app_last (z : A) (l : list A) :
  (forall y, In y l -> key y <= key z) ->
  Np.sort_by key (l ++ [z]) = Np.sort_by key l ++ [z].
Proof.
  induction l as [| a l IH]; intros Hle; simpl; [reflexivity |].
  rewrite IH by (intros y Hy; apply Hle; now right).
  apply insert_by_app_last. apply Hle. now left.
Qed.

(** An element not above the others sorts first. *)
Lemma sort_by_cons_first (a : A) (l : list A) :
  (forall y, In y l -> key a <= key y) ->
  Np.sort_by key (a :: l) = a :: Np.sort_by key l.
Proof.
  intros Hle. simpl.
  destruct (Np.sort_by key l) as [| b m] eqn:Hs; [reflexivity |]. simpl.
  destruct (Rle_dec (key a) (key b)) as [_ | Hn]; [reflexivity |].
  exfalso. apply Hn, Hle. apply (sort_by_In key l b). rewrite Hs. now left.
Qed.

Lemma ascending_after (z : A) (p q : list A) :
  ascending key (p ++ z :: q) -> Forall (fun y => key z <= key y) q.
Proof.
  unfold ascending. induction p as [| a p IH]; simpl; intros Hs;
    inversion Hs; subst; [assumption | now apply IH].
Qed.

(** In an ascending list with distinct keys, the element with the
    greatest key is the last one. *)
Lemma ascending_greatest_last (z : A) (l : list A) :
  ascending key l -> NoDup (map key l) -> In z l ->
  (forall y, In y l -> key y <= key z) ->
  exists pre, l = pre ++ [z].
Proof.
  intros Hasc Hnd Hin Hle.
  destruct (in_split z l Hin) as [p [q Hl]]. subst l.
  exists p. destruct q as [| b q]; [reflexivity |]. exfalso.
  apply ascending_after in Hasc. inversion Hasc as [| ? ? Hzb _]; subst.
  assert (Hbz : key b <= key z) by (apply Hle, in_or_app; right; right; now left).
  rewrite map_app in Hnd. apply NoDup_app_remove_l in Hnd. simpl in Hnd.
  inversion Hnd as [| ? ? Hnotin _]; subst. apply Hnotin. left. lra.
Qed.
End SortedEnds.

Lemma min_of_list (l : list R) (m : R) :
  In m l -> (forall y, In y l -> m <= y) -> Np.min l = m.
Proof.
  intros Hin Hle. unfold Np.min.
  assert (Hlow : forall x l', fold_right Rmin x l' <= x
                              /\ forall y, In y l' -> fold_right Rmin x l' <= y).
  { intros x l'. induction l' as [| a l' [IH1 IH2]]; simpl.
    - split; [lra | tauto].
    - split; [etransitivity; [apply Rmin_r | exact IH1] |].
      intros y [<- | Hy]; [apply Rmin_l |].
      etransitivity; [apply Rmin_r | now apply IH2]. }
  assert (Hmem : forall x l', fold_right Rmin x l' = x \/ In (fold_right Rmin x l') l').
  { intros x l'. induction l' as [| a l' IH]; simpl; [now left |].
    destruct (Rle_dec a (fold_right Rmin x l')) as [Hle' | Hgt'].
    - rewrite Rmin_left by exact Hle'. right. now left.
    - rewrite Rmin_right by lra. destruct IH as [IH | IH]; [now left | right; now right]. }
  destruct l as [| a l]; [contradiction |]. simpl hd.
  apply Rle_antisym.
  - now apply (proj2 (Hlow a (a :: l))).
  - apply Hle. destruct (Hmem a (a :: l)) as [-> | H]; [now left | exact H].
Qed.

Lemma max_of_list (l : list R) (m : R) :
  In m l -> (forall y, In y l -> y <= m) -> Np.max l = m.
Proof.
  intros Hin Hle. unfold Np.max.
  assert (Hup : forall x l', x <= fold_right Rmax x l'
                             /\ forall y, In y l' -> y <= fold_right Rmax x l').
  { intros x l'. induction l' as [| a l' [IH1 IH2]]; simpl.
    - split; [lra | tauto].
    - split; [etransitivity; [exact IH1 | apply Rmax_r] |].
      intros y [<- | Hy]; [apply Rmax_l |].
      etransitivity; [now apply IH2 | apply Rmax_r]. }
  assert (Hmem : forall x l', fold_right Rmax x l' = x \/ In (fold_right Rmax x l') l').
  { intros x l'. induction l' as [| a l' IH]; simpl; [now left |].
    destruct (Rle_dec a (fold_right Rmax x l')) as [Hle' | Hgt'].
    - rewrite Rmax_right by exact Hle'. destruct IH as [IH | IH]; [now left | right; now right].
    - rewrite Rmax_left by lra. right. now left. }
  destruct l as [| a l]; [contradiction |]. simpl hd.
  apply Rle_antisym.
  - apply Hle. destruct (Hmem a (a :: l)) as [-> | H]; [now left | exact H].
  - now apply (proj2 (Hup a (a :: l))).
Qed.

Lemma interp_sorted_last_pair {V : Type} (lerp : R -> V -> R -> V -> R -> V)
      (x xa xb : R) (ya yb : V) :
  xa < x -> x <= xb ->
  forall pre : list (R * V),
    Forall (fun k => fst k < x) pre ->
    Xr.interp_sorted lerp (pre ++ [(xa, ya); (xb, yb)]) x = Some (lerp xa ya xb yb x).
Proof.
  intros Ha Hb. induction pre as [| [x0 y0] pre IH]; intros Hpre.
  - simpl. destruct (Rle_dec x xb); [reflexivity | contradiction].
  - inversion Hpre as [| ? ? _ Hrest]; subst. specialize (IH Hrest).
    destruct pre as [| [x1 y1] pre'].
    + simpl in *. destruct (Rle_dec x xa); [lra | exact IH].
    + inversion Hrest as [| ? ? H1 _]; subst. simpl in H1.
      change (Xr.interp_sorted lerp (((x0, y0) :: (x1, y1) :: pre') ++ [(xa, ya); (xb, yb)]) x)
        with (if Rle_dec x x1 then Some (lerp x0 y0 x1 y1 x)
              else Xr.interp_sorted lerp (((x1, y1) :: pre') ++ [(xa, ya); (xb, yb)]) x).
      destruct (Rle_dec x x1); [lra | exact IH].
Qed.

Lemma combine_map_diag {A B : Type} (f : A -> B) (l : list A) :
  combine (map f l) l = map (fun a => (f a, a)) l.
Proof. induction l as [| a l IH]; simpl; [reflexivity | now rewrite IH]. Qed.

(** The sorted knots of a list of slices that lies between a lowest and
    a highest one: the highest two are the last two. *)
Lemma knots_end (lo : Slice) (mid : list Slice) (top last : Slice) :
  (forall s, In s mid -> wave_direction lo <= wave_direction s) ->
  (forall s, In s mid -> wave_direction s <= wave_direction top) ->
  wave_direction lo <= wave_direction last ->
  wave_direction top <= wave_direction last ->
  In top mid ->
  NoDup (map wave_direction mid) ->
  exists pre : list (R * Slice),
    Np.sort_by fst (combine (map wave_direction (lo :: mid ++ [last])) (lo :: mid ++ [last]))
    = ((wave_direction lo, lo) :: pre)
      ++ [(wave_direction top, top); (wave_direction last, last)]
    /\ Forall (fun k => fst k <= wave_direction top) pre.
Proof.
  intros Hlo Htop Hlolast Htoplast Hin Hnd.
  rewrite combine_map_diag.
  set (pair := fun s : Slice => (wave_direction s, s)).
  change (map pair (lo :: mid ++ [last]))
    with ((pair lo :: map pair (mid ++ [last]))).
  rewrite map_app. simpl map at 2.
  change (pair lo :: map pair mid ++ [pair last])
    with ((pair lo :: map pair mid) ++ [pair last]).
  rewrite sort_by_app_last.
  2:{ intros y [<- | Hy]; simpl; [exact Hlolast |].
      apply in_map_iff in Hy. destruct Hy as [s [<- Hs]]. simpl.
      specialize (Htop s Hs). lra. }
  rewrite sort_by_cons_first.
  2:{ intros y Hy. apply in_map_iff in Hy. destruct Hy as [s [<- Hs]]. simpl.
      now apply Hlo. }
  destruct (ascending_greatest_last _ fst (pair top) (Np.sort_by fst (map pair mid)))
    as [pre Hpre].
  - apply sort_by_ascending.
  - apply (Permutation_NoDup (l := map fst (map pair mid))).
    + apply Permutation_map. symmetry. apply sort_by_perm.
    + rewrite map_map. simpl. exact Hnd.
  - apply sort_by_In. now apply in_map.
  - intros y Hy. apply sort_by_In in Hy. apply in_map_iff in Hy.
    destruct Hy as [s [<- Hs]]. simpl. now apply Htop.
  - exists pre. rewrite Hpre. split.
    + simpl. now rewrite <- app_assoc.
    + apply Forall_forall. intros k Hk.
      assert (Hk' : In k (Np.sort_by fst (map pair mid)))
        by (rewrite Hpre; apply in_or_app; now left).
      apply sort_by_In in Hk'. apply in_map_iff in Hk'.
      destruct Hk' as [s [<- Hs]]. simpl. now apply Htop.
Qed.

Lemma expand_direction_wrap (d : Dataset) (s0 s350 : Slice) :
  Forall (fun h => 0 <= h <= 350) (wave_directions d) ->
  Xr.sel_wave_direction d 0 = Some s0 ->
  Xr.sel_wave_direction d 350 = Some s350 ->
  Helpers.expand_direction_to_full_range d
  = mkDataset (omega d)
              ([Helpers.with_direction (350 - 360) s350] ++ slices d
               ++ [Helpers.with_direction (0 + 360) s0])
              (amplitude_dtype d).
Proof.
  intros Hrange H0 H350. rewrite Forall_forall in Hrange.
  destruct (sel_wave_direction_In _ _ _ H0) as [_ [_ Hc0]].
  destruct (sel_wave_direction_In _ _ _ H350) as [_ [_ Hc350]].
  apply contains_In in Hc0, Hc350.
  assert (Hmin : Np.min (wave_directions d) = 0)
    by (apply min_of_list; [exact Hc0 | intros y Hy; now apply Hrange]).
  assert (Hmax : Np.max (wave_directions d) = 350)
    by (apply max_of_list; [exact Hc350 | intros y Hy; now apply Hrange]).
  unfold Helpers.expand_direction_to_full_range. rewrite Hmin, Hmax, H0, H350.
  assert (Hlo : Np.contains (wave_directions d) (350 - 360) = false).
  { apply contains_false. intros Hin. apply Hrange in Hin. lra. }
  assert (Hhi : Np.contains (wave_directions d) (0 + 360) = false).
  { apply contains_false. intros Hin. apply Hrange in Hin. lra. }
  now rewrite Hlo, Hhi.
Qed.

Lemma interp_sorted_direction (h : R) :
  forall (knots : list (R * Slice)) (s : Slice),
    Xr.interp_sorted Xr.lerp_slice knots h = Some s -> wave_direction s = h.
Proof.
  induction knots as [| [x0 y0] rest IH]; intros s; simpl; [discriminate |].
  destruct rest as [| [x1 y1] rest']; [discriminate |].
  destruct (Rle_dec h x1); [| apply IH].
  intros Hs. now inversion Hs.
Qed.

Lemma interp_target_direction (d : Dataset) (h : R) :
  wave_direction
    (match Xr.interp1d Xr.lerp_slice (wave_directions d) (slices d) h with
     | Some s => s
     | None => Xr.nan_slice d h
     end) = h.
Proof.
  destruct (Xr.interp1d Xr.lerp_slice (wave_directions d) (slices d) h) as [s |] eqn:Hs;
    [| reflexivity].
  unfold Xr.interp1d in Hs.
  destruct (Np.sort_by fst (combine (wave_directions d) (slices d))) as [| [x0 y0] rest];
    [discriminate |].
  destruct (Rlt_dec h x0); [discriminate |].
  now apply interp_sorted_direction in Hs.
Qed.

Lemma find_target (F : R -> Slice) (x : R) (targets : list R) :
  (forall h, wave_direction (F h) = h) ->
  In x targets ->
  find (fun s => Np.eqb (wave_direction s) x) (map F targets) = Some (F x).
Proof.
  intros HF. induction targets as [| h t IH]; simpl; [tauto |].
  intros Hin. rewrite HF. destruct (Np.eqb h x) eqn:He.
  - apply eqb_true in He. now subst.
  - apply IH. destruct Hin as [-> | Hin]; [| exact Hin].
    rewrite eqb_refl in He. discriminate.
Qed.

Lemma complex_unit_add_slices (d : Dataset) :
  _complex_unit_add d
  = mkDataset (omega d) (map with_complex_unit (slices d)) (amplitude_dtype d).
Proof. reflexivity. Qed.

(** The interpolation at 359 on the expanded grid brackets the target
    between the column at 350 and the copy of the column at 0. *)
Lemma interp_wrap_value (d : Dataset) (s0 s350 : Slice) :
  NoDup (wave_directions d) ->
  Forall (fun h => 0 <= h <= 350) (wave_directions d) ->
  In s350 (slices d) -> wave_direction s350 = 350 ->
  forall X : Dataset,
    X = _complex_unit_add
          (mkDataset (omega d)
                     ([Helpers.with_direction (350 - 360) s350] ++ slices d
                      ++ [Helpers.with_direction (0 + 360) s0])
                     (amplitude_dtype d)) ->
    Xr.interp1d Xr.lerp_slice (wave_directions X) (slices X) 359
    = Some (Xr.lerp_slice 350 (with_complex_unit s350)
                          360 (with_complex_unit (Helpers.with_direction (0 + 360) s0))
                          359).
Proof.
  intros Hnd Hrange Hin350 Hwd350 X ->.
  rewrite Forall_forall in Hrange.
  change (Xr.interp1d Xr.lerp_slice
            (map wave_direction
               (map with_complex_unit
                    (Helpers.with_direction (350 - 360) s350 :: slices d
                     ++ [Helpers.with_direction (0 + 360) s0])))
            (map with_complex_unit
                 (Helpers.with_direction (350 - 360) s350 :: slices d
                  ++ [Helpers.with_direction (0 + 360) s0]))
            359
          = Some (Xr.lerp_slice 350 (with_complex_unit s350)
                                360 (with_complex_unit (Helpers.with_direction (0 + 360) s0))
                                359)).
  assert (HL : map with_complex_unit
                   (Helpers.with_direction (350 - 360) s350 :: slices d
                    ++ [Helpers.with_direction (0 + 360) s0])
               = with_complex_unit (Helpers.with_direction (350 - 360) s350)
                 :: map with_complex_unit (slices d)
                 ++ [with_complex_unit (Helpers.with_direction (0 + 360) s0)])
    by (simpl; now rewrite map_app).
  rewrite HL. clear HL.
  destruct (knots_end (with_complex_unit (Helpers.with_direction (350 - 360) s350))
                      (map with_complex_unit (slices d))
                      (with_complex_unit s350)
                      (with_complex_unit (Helpers.with_direction (0 + 360) s0)))
    as [pre [Hknots Hpre]].
  - intros s Hs. apply in_map_iff in Hs. destruct Hs as [t [<- Ht]]. simpl.
    assert (Hr : In (wave_direction t) (wave_directions d)) by now apply in_map.
    apply Hrange in Hr. lra.
  - intros s Hs. apply in_map_iff in Hs. destruct Hs as [t [<- Ht]]. simpl.
    assert (Hr : In (wave_direction t) (wave_directions d)) by now apply in_map.
    apply Hrange in Hr. lra.
  - simpl. lra.
  - simpl. lra.
  - now apply in_map.
  - rewrite map_map. simpl. exact Hnd.
  - unfold Xr.interp1d. rewrite Hknots.
    cbn [app fst wave_direction with_complex_unit Helpers.with_direction].
    destruct (Rlt_dec 359 (350 - 360)); [lra |].
    change ((350 - 360, with_complex_unit (Helpers.with_direction (350 - 360) s350))
              :: pre ++ [(wave_direction s350, with_complex_unit s350);
                         (0 + 360, with_complex_unit (Helpers.with_direction (0 + 360) s0))])
      with (((350 - 360, with_complex_unit (Helpers.with_direction (350 - 360) s350)) :: pre)
              ++ [(wave_direction s350, with_complex_unit s350);
                  (0 + 360, with_complex_unit (Helpers.with_direction (0 + 360) s0))]).
    rewrite interp_sorted_last_pair.
    + now rewrite Hwd350, Rplus_0_l.
    + lra.
    + lra.
    + constructor; [simpl; lra |].
      rewrite Forall_forall in Hpre |- *. intros k Hk. specialize (Hpre k Hk).
      simpl in Hpre. lra.
Qed.

(** The run of the heading regrid at the target 359 on a grid whose
    headings lie between 0 and 350, both included. *)
Lemma regrid_direction_wrap_run (d : Dataset) (new_headings : list R) (s0 s350 : Slice) :
  NoDup (wave_directions d) ->
  Forall (fun h => 0 <= h <= 350) (wave_directions d) ->
  Xr.sel_wave_direction d 0 = Some s0 ->
  Xr.sel_wave_direction d 350 = Some s350 ->
  In 359 new_headings ->
  Xr.sel_wave_direction (regrid_direction_data new_headings d) 359
  = Some (wrap_column s350 s0).
Proof.
  intros Hnd Hrange H0 H350 Hin.
  unfold regrid_direction_data.
  rewrite (expand_direction_wrap d s0 s350 Hrange H0 H350).
  destruct (sel_wave_direction_In _ _ _ H350) as [Hin350 [Hwd350 _]].
  remember (_complex_unit_add
              {| omega := omega d;
                 slices := [Helpers.with_direction (350 - 360) s350] ++ slices d
                           ++ [Helpers.with_direction (0 + 360) s0];
                 amplitude_dtype := amplitude_dtype d |}) as X eqn:HX.
  unfold Xr.sel_wave_direction, _complex_unit_delete, _complex_unit_to_phase.
  unfold Xr.interp_wave_direction. simpl slices. rewrite !map_map.
  rewrite (find_target _ 359 new_headings); [| | exact Hin].
  2:{ intros h. simpl. apply interp_target_direction. }
  f_equal.
  rewrite (interp_wrap_value d s0 s350 Hnd Hrange Hin350 Hwd350 X HX).
  reflexivity.
Qed.

Lemma nth_error_lerp_row {V : Type} (lerp : R -> V -> R -> V -> R -> V)
      (x0 x1 x : R) :
  forall (r0 r1 : list V) (j : nat) (a b : V),
    nth_error r0 j = Some a -> nth_error r1 j = Some b ->
    nth_error (Xr.lerp_row lerp x0 r0 x1 r1 x) j = Some (lerp x0 a x1 b x).
Proof.
  intros r0 r1 j a b Ha Hb.
  exact (nth_error_zip_with (fun u v => lerp x0 u x1 v x) r0 r1 j a b Ha Hb).
Qed.

(** C2.  On a grid with distinct headings between 0 and 350 degrees that
    has a column at 0 and a column at 350, regridding the heading axis to
    targets that include 359 returns, and the column at 359 is the linear
    interpolation between the column at 350 and a copy of the column at 0
    placed at 360: for amplitudes [a] at 350 and [b] at 0 the amplitude is
    [(b - a) / (360 - 350) * (359 - 350) + a], and the phase is the angle
    of the phase vector interpolated the same way, both defined. *)
Theorem regrid_direction_wraps (self : Rao) (new_headings : list R) (s0 s350 : Slice) :
  NoDup (wave_directions (_data self)) ->
  Forall (fun h => 0 <= h <= 350) (wave_directions (_data self)) ->
  Xr.sel_wave_direction (_data self) 0 = Some s0 ->
  Xr.sel_wave_direction (_data self) 350 = Some s350 ->
  In 359 new_headings ->
  outcome (regrid_direction new_headings) self = Ok tt
  /\ Xr.sel_wave_direction (_data (state_after (regrid_direction new_headings) self)) 359
     = Some (wrap_column s350 s0)
  /\ (forall (j : nat) (a b : R),
        nth_error (amplitude s350) j = Some (Some a) ->
        nth_error (amplitude s0) j = Some (Some b) ->
        nth_error (amplitude (wrap_column s350 s0)) j
        = Some (Some ((b - a) / (360 - 350) * (359 - 350) + a)))
  /\ (forall (j : nat) (p q : R),
        nth_error (phase s350) j = Some (Some p) ->
        nth_error (phase s0) j = Some (Some q) ->
        nth_error (phase (wrap_column s350 s0)) j
        = Some (Some (Np.arctan2
                        ((sin q - sin p) / (360 - 350) * (359 - 350) + sin p)
                        ((cos q - cos p) / (360 - 350) * (359 - 350) + cos p)))).
Proof.
  intros Hnd Hrange H0 H350 Hin. unfold outcome, state_after.
  rewrite regrid_direction_run. simpl fst. simpl snd. simpl _data.
  split; [reflexivity |]. split; [now apply regrid_direction_wrap_run |]. split.
  - intros j a b Ha Hb. simpl.
    rewrite (nth_error_lerp_row Xr.lerp_cell 350 360 359 _ _ j _ _ Ha Hb).
    unfold Xr.lerp_cell. destruct (Req_dec_T 350 360); [lra | reflexivity].
  - intros j p q Hp Hq. simpl. rewrite nth_error_map.
    rewrite (nth_error_lerp_row Xr.lerp_ccell 350 360 359 _ _ j
               (Np.exp_1j (Some p)) (Np.exp_1j (Some q)))
      by (rewrite nth_error_map; (rewrite Hp || rewrite Hq); reflexivity).
    unfold Xr.lerp_ccell, Xr.lerp_cell; simpl.
    destruct (Req_dec_T 350 360); [lra | reflexivity].
Qed.

Lemma grid_0_350_sel_0 :
  Xr.sel_wave_direction (_data grid_0_350) 0 = Some (mkSlice 0 [Some 10] [Some 0] None).
Proof. unfold Xr.sel_wave_direction; simpl. now rewrite eqb_refl. Qed.

Lemma grid_0_350_sel_350 :
  Xr.sel_wave_direction (_data grid_0_350) 350 = Some (mkSlice 350 [Some 0] [Some 0] None).
Proof. unfold Xr.sel_wave_direction, Np.eqb; simpl. rcases; reflexivity. Qed.

(** The grid with the headings 0 and 350, regridded to 0, 350 and 359:
    the amplitude at 359 is nine tenths of the way from 0 to 10. *)
Lemma regrid_direction_wraps_witness :
  NoDup (wave_directions (_data grid_0_350))
  /\ Forall (fun h => 0 <= h <= 350) (wave_directions (_data grid_0_350))
  /\ In 359 [0; 350; 359]
  /\ outcome (regrid_direction [0; 350; 359]) grid_0_350 = Ok tt
  /\ Xr.sel_wave_direction
       (_data (state_after (regrid_direction [0; 350; 359]) grid_0_350)) 359
     = Some (wrap_column (mkSlice 350 [Some 0] [Some 0] None)
                         (mkSlice 0 [Some 10] [Some 0] None)).
Proof.
  assert (Hnd : NoDup (wave_directions (_data grid_0_350))).
  { unfold wave_directions; simpl. constructor; [| constructor; [| constructor]].
    - intros [H | []]. lra.
    - intros []. }
  assert (Hr : Forall (fun h => 0 <= h <= 350) (wave_directions (_data grid_0_350))).
  { unfold wave_directions; simpl. repeat (apply Forall_cons; [lra |]). apply Forall_nil. }
  assert (Hin : In 359 [0; 350; 359]) by (right; right; now left).
  split; [exact Hnd |]. split; [exact Hr |]. split; [exact Hin |].
  pose proof (regrid_direction_wraps grid_0_350 [0; 350; 359] _ _
                Hnd Hr grid_0_350_sel_0 grid_0_350_sel_350 Hin) as H.
  split; [exact (proj1 H) | exact (proj1 (proj2 H))].
Defined.

(** The grid with the headings 0, 350 and 355, regridded to 359: the
    bracket of 359 is the column at 355 and the copy of the column at 0,
    so the amplitude is 8, where the line from the column at 350 gives 9. *)
Lemma regrid_direction_nearer_column :
  Xr.sel_wave_direction (_data grid_0_350_355) 0 = Some (mkSlice 0 [Some 10] [Some 0] None)
  /\ Xr.sel_wave_direction (_data grid_0_350_355) 350
     = Some (mkSlice 350 [Some 0] [Some 0] None)
  /\ cell_at amplitude (_data (state_after (regrid_direction [359]) grid_0_350_355)) 0 0
     = Some (Some 8)
  /\ nth_error (amplitude (wrap_column (mkSlice 350 [Some 0] [Some 0] None)
                                       (mkSlice 0 [Some 10] [Some 0] None))) 0
     = Some (Some 9).
Proof.
  assert (Hmin : Np.min [0; 350; 355] = 0).
  { apply min_of_list; simpl; [tauto | intros y Hy; intuition lra]. }
  assert (Hmax : Np.max [0; 350; 355] = 355).
  { apply max_of_list; simpl; [tauto | intros y Hy; intuition lra]. }
  assert (Hexp : Helpers.expand_direction_to_full_range (_data grid_0_350_355)
                 = mkDataset [1]
                     [ mkSlice (355 - 360) [Some 0] [Some 0] None;
                       mkSlice 0 [Some 10] [Some 0] None;
                       mkSlice 350 [Some 0] [Some 0] None;
                       mkSlice 355 [Some 0] [Some 0] None;
                       mkSlice (0 + 360) [Some 10] [Some 0] None ]
                     Float64).
  { unfold Helpers.expand_direction_to_full_range, wave_directions.
    simpl map. rewrite Hmin, Hmax.
    unfold Xr.sel_wave_direction, Helpers.with_direction. reval. reflexivity. }
  split; [| split; [| split]].
  - unfold Xr.sel_wave_direction. reval. reflexivity.
  - unfold Xr.sel_wave_direction. reval. reflexivity.
  - unfold state_after. rewrite regrid_direction_run.
    unfold regrid_direction_data. rewrite Hexp.
    unfold cell_at, Xr.interp_wave_direction, Xr.interp1d, wave_directions,
      Xr.lerp_slice, Xr.lerp_row, Xr.lerp_cell.
    reval. do 2 f_equal. lra.
  - unfold wrap_column, Xr.lerp_row, Xr.lerp_cell. reval. do 2 f_equal. lra.
Qed.

(** * Further properties of the methods *)

(** ** [set_data] and the mode *)

(** X1.  [set_data] never touches [self.mode], whatever it is given as
    [mode]; so on an object without a mode, [set_data] with any mode
    followed by [add_symmetry_xz] raises. *)
Theorem set_data_ignores_mode (dt : dtype) (directions omegas : list R)
        (amp ph : list (list cell)) (m : mode_value) (self : Rao) :
  mode (state_after (set_data dt directions omegas amp ph m) self) = mode self
  /\ (mode self = ModeNone ->
      exists e, outcome (set_data dt directions omegas amp ph m ;; add_symmetry_xz) self
                = Raise e).
Proof.
  unfold state_after, outcome, set_data.
  destruct (shape_ok directions omegas amp && shape_ok directions omegas ph).
  - split; [reflexivity |]. intros Hm. exists NameError.
    unfold bind, put_data, add_symmetry_xz, get_mode, bind; simpl. now rewrite Hm.
  - split; [reflexivity |]. intros _. now exists ValueError.
Qed.

(** ** The regrid methods drop the channel *)

(** X3.  After [regrid_omega] and after [regrid_direction] no slice holds
    a [complex_unit] channel, also when the grid held one before, and
    the mode is as before. *)
Theorem regrid_leaves_no_channel (targets : list R) (self : Rao) :
  Forall (fun s => complex_unit s = None)
         (slices (_data (state_after (regrid_omega targets) self)))
  /\ mode (state_after (regrid_omega targets) self) = mode self
  /\ Forall (fun s => complex_unit s = None)
            (slices (_data (state_after (regrid_direction targets) self)))
  /\ mode (state_after (regrid_direction targets) self) = mode self.
Proof.
  unfold state_after. rewrite regrid_omega_run, regrid_direction_run. simpl.
  repeat split; apply Forall_forall; intros s Hs; apply in_map_iff in Hs;
    destruct Hs as [t [<- _]]; reflexivity.
Qed.

(** ** Export and import of the flattened dataset *)

Lemma to_xarray_nocomplex_run (self : Rao) :
  to_xarray_nocomplex self
  = (Ok (mkNcDataset (omega (_data self)) (map export_slice (slices (_data self)))),
     mkRao (_complex_unit_add (_data self)) (mode self)).
Proof.
  unfold to_xarray_nocomplex, __getitem__complex_unit. run.
  now rewrite zip_with_map_diag.
Qed.

(** X4.  [to_xarray_nocomplex] returns a dataset over the axes of the
    grid whose entries are [real = a cos p] and [imag = a sin p] for the
    amplitude [a] and the phase [p] of the grid; on [self] it changes no
    amplitude and no phase. *)
Theorem to_xarray_nocomplex_spec (self : Rao) :
  exists e : NcDataset,
    outcome to_xarray_nocomplex self = Ok e
    /\ nc_omega e = omega (_data self)
    /\ map nc_wave_direction (nc_slices e) = wave_directions (_data self)
    /\ (forall (i j : nat) (a p : R),
          cell_at amplitude (_data self) i j = Some (Some a) ->
          cell_at phase (_data self) i j = Some (Some p) ->
          nc_cell_at real e i j = Some (Some (a * cos p))
          /\ nc_cell_at imag e i j = Some (Some (a * sin p)))
    /\ map amplitude (slices (_data (state_after to_xarray_nocomplex self)))
       = map amplitude (slices (_data self))
    /\ map phase (slices (_data (state_after to_xarray_nocomplex self)))
       = map phase (slices (_data self)).
Proof.
  unfold outcome, state_after. rewrite to_xarray_nocomplex_run. simpl.
  eexists. split; [reflexivity |]. simpl.
  split; [reflexivity |]. split; [| split; [| split]].
  - unfold wave_directions. now rewrite map_map.
  - intros i j a p. unfold cell_at, nc_cell_at; simpl. rewrite nth_error_map.
    destruct (nth_error (slices (_data self)) i) as [s |]; simpl; [| discriminate].
    intros Ha Hp.
    assert (Hz : nth_error (zip_with Np.rmul (amplitude s) (map Np.exp_1j (phase s))) j
                 = Some (Some (a * cos p, a * sin p))).
    { apply (nth_error_zip_with Np.rmul _ _ j (Some a) (Some (cos p, sin p)) Ha).
      now rewrite nth_error_map, Hp. }
    now rewrite !nth_error_map, Hz.
  - now rewrite map_map.
  - now rewrite map_map.
Qed.

(** X5.  Of two exports in a row the second returns the [real] and
    [imag] of the first, and with them the channel
    [complex_unit = exp(i phase)] that the first export wrote on the
    grid; the first returns the channel only if the grid already held
    one. *)
Theorem export_twice_carries_channel (self : Rao) :
  exists e1 e2 : NcDataset,
    outcome export_twice self = Ok (e1, e2)
    /\ nc_omega e2 = nc_omega e1
    /\ map real (nc_slices e2) = map real (nc_slices e1)
    /\ map imag (nc_slices e2) = map imag (nc_slices e1)
    /\ map nc_complex_unit (nc_slices e1) = map complex_unit (slices (_data self))
    /\ map nc_complex_unit (nc_slices e2)
       = map (fun s => Some (map Np.exp_1j (phase s))) (slices (_data self)).
Proof.
  unfold outcome, export_twice, bind.
  rewrite to_xarray_nocomplex_run, to_xarray_nocomplex_run. simpl.
  do 2 eexists. split; [reflexivity |]. simpl.
  rewrite !map_map. simpl. repeat split.
Qed.

Lemma atan_nonpos (t : R) : t <= 0 -> atan t <= 0.
Proof.
  intros [Hlt | ->]; [| rewrite atan_0; lra].
  left. rewrite <- atan_0. now apply atan_increasing.
Qed.

Lemma atan_pos (t : R) : 0 < t -> 0 < atan t.
Proof. intros Ht. rewrite <- atan_0. now apply atan_increasing. Qed.

(** [np.arctan2] returns a principal angle. *)
Lemma arctan2_range (y x : R) : - PI < Np.arctan2 y x <= PI.
Proof.
  pose proof PI_RGT_0 as Hpi. pose proof (atan_bound (y / x)) as Hb.
  unfold Np.arctan2.
  destruct (Rlt_dec 0 x) as [Hx | Hx]; [lra |].
  destruct (Rlt_dec x 0) as [Hx' | Hx'].
  - assert (Hinv : / x < 0) by now apply Rinv_lt_0_compat.
    destruct (Rle_dec 0 y) as [Hy | Hy].
    + assert (Ht : y / x <= 0) by (unfold Rdiv; nra).
      apply atan_nonpos in Ht. lra.
    + assert (Ht : 0 < y / x) by (unfold Rdiv; nra).
      apply atan_pos in Ht. lra.
  - destruct (Rlt_dec 0 y); [lra |]. destruct (Rlt_dec y 0); lra.
Qed.

(** X6.  [from_xarray_nocomplex] raises [AssertionError] and leaves the
    object as it is when the mode is not a [MotionMode]; otherwise it
    returns, sets the mode, takes the axes of the dataset, and the grid
    it leaves has no negative amplitude and only phases in (-pi, pi],
    whatever [real] and [imag] hold. *)
Theorem from_xarray_nocomplex_spec (a : NcDataset) (self : Rao) :
  from_xarray_nocomplex a ModeNone self = (Raise AssertionError, self)
  /\ (forall tag, from_xarray_nocomplex a (ModeOther tag) self = (Raise AssertionError, self))
  /\ forall m : MotionMode,
      outcome (from_xarray_nocomplex a (ModeOf m)) self = Ok tt
      /\ mode (state_after (from_xarray_nocomplex a (ModeOf m)) self) = ModeOf m
      /\ omega (_data (state_after (from_xarray_nocomplex a (ModeOf m)) self)) = nc_omega a
      /\ wave_directions (_data (state_after (from_xarray_nocomplex a (ModeOf m)) self))
         = map nc_wave_direction (nc_slices a)
      /\ Forall (fun s => Forall nonneg_cell (amplitude s)
                          /\ Forall principal_cell (phase s))
                (slices (_data (state_after (from_xarray_nocomplex a (ModeOf m)) self))).
Proof.
  split; [reflexivity |]. split; [reflexivity |].
  intros m. unfold outcome, state_after, from_xarray_nocomplex. run.
  split; [reflexivity |]. split; [reflexivity |]. split; [reflexivity |]. split.
  - unfold wave_directions; simpl. now rewrite map_map.
  - apply Forall_forall. intros s Hs. apply in_map_iff in Hs.
    destruct Hs as [t [<- _]]. simpl. split.
    + apply Forall_forall. intros c Hc. apply in_map_iff in Hc.
      destruct Hc as [[z |] [<- _]]; simpl; [apply sqrt_pos | exact I].
    + apply Forall_forall. intros c Hc. apply in_map_iff in Hc.
      destruct Hc as [[z |] [<- _]]; simpl; [apply arctan2_range | exact I].
Qed.

(** ** The phase-vector bracket *)

(** X7.  Writing the phase vector [exp(i phase)], reading the phase back
    as its angle and dropping the vector keeps the axes and every
    amplitude; every phase comes back as the angle in (-pi, pi] that is
    congruent to it modulo 2 pi, and an undefined phase stays
    undefined. *)
Theorem phase_bracket_normalises (d : Dataset) :
  omega (phase_bracket d) = omega d
  /\ wave_directions (phase_bracket d) = wave_directions d
  /\ map amplitude (slices (phase_bracket d)) = map amplitude (slices d)
  /\ Forall (fun s => complex_unit s = None) (slices (phase_bracket d))
  /\ forall i j : nat,
      match cell_at phase d i j with
      | Some (Some p) =>
          exists p' : R, cell_at phase (phase_bracket d) i j = Some (Some p')
                         /\ congruent_2pi p p' /\ - PI < p' <= PI
      | other => cell_at phase (phase_bracket d) i j = other
      end.
Proof.
  unfold phase_bracket, _complex_unit_delete, _complex_unit_to_phase, _complex_unit_add.
  simpl. rewrite !map_map. simpl. unfold wave_directions; simpl.
  rewrite !map_map. simpl. repeat split.
  - apply Forall_forall. intros s Hs. apply in_map_iff in Hs.
    destruct Hs as [t [<- _]]. reflexivity.
  - intros i j. unfold cell_at; simpl. rewrite nth_error_map.
    destruct (nth_error (slices d) i) as [s |]; simpl; [| reflexivity].
    rewrite !nth_error_map.
    destruct (nth_error (phase s) j) as [[p |] |]; simpl; try reflexivity.
    exists (Np.arctan2 (sin p) (cos p)). split; [reflexivity |].
    split; [| apply arctan2_range].
    replace (sin p) with (1 * sin p) by ring. replace (cos p) with (1 * cos p) by ring.
    apply arctan2_polar. lra.
Qed.

(** ** Inserting a point twice *)

Lemma regrid_direction_headings (new_headings : list R) (d : Dataset) :
  wave_directions (regrid_direction_data new_headings d) = new_headings.
Proof.
  unfold regrid_direction_data.
  remember (_complex_unit_add (Helpers.expand_direction_to_full_range d)) as X eqn:HX.
  unfold _complex_unit_delete, _complex_unit_to_phase, Xr.interp_wave_direction.
  unfold wave_directions at 1. simpl slices. rewrite !map_map.
  rewrite <- (map_id new_headings) at 2. apply map_ext.
  intros h. simpl. apply interp_target_direction.
Qed.

Lemma sort_contains_new (l : list R) (x : R) : Np.contains (Np.sort (l ++ [x])) x = true.
Proof.
  apply contains_In. unfold Np.sort. apply sort_by_In, in_or_app. right. now left.
Qed.

Lemma add_frequency_run (w : R) (self : Rao) :
  add_frequency w self
  = if Np.contains (omega (_data self)) w then (Ok tt, self)
    else (Ok tt,
          mkRao (regrid_omega_data (Np.sort (omega (_data self) ++ [w])) (_data self))
                (mode self)).
Proof.
  unfold add_frequency, bind, get_data. simpl.
  now destruct (Np.contains (omega (_data self)) w).
Qed.

Lemma add_direction_run (h : R) (self : Rao) :
  add_direction h self
  = if Np.contains (wave_directions (_data self)) h then (Ok tt, self)
    else (Ok tt,
          mkRao (regrid_direction_data (Np.sort (wave_directions (_data self) ++ [h]))
                                       (_data self))
                (mode self)).
Proof.
  unfold add_direction, bind, get_data. simpl.
  now destruct (Np.contains (wave_directions (_data self)) h).
Qed.

(** X8.  [add_frequency] returns; afterwards the frequency is a label of
    the frequency axis, which is the axis as it was when it held the
    frequency and otherwise the sorted axis with the frequency inserted;
    the heading axis is as before, and a second call with the same
    frequency changes nothing. *)
Theorem add_frequency_idempotent (w : R) (self : Rao) :
  outcome (add_frequency w) self = Ok tt
  /\ Np.contains (omega (_data (state_after (add_frequency w) self))) w = true
  /\ omega (_data (state_after (add_frequency w) self))
     = (if Np.contains (omega (_data self)) w then omega (_data self)
        else Np.sort (omega (_data self) ++ [w]))
  /\ wave_directions (_data (state_after (add_frequency w) self))
     = wave_directions (_data self)
  /\ (add_frequency w ;; add_frequency w) self = add_frequency w self.
Proof.
  unfold outcome, state_after, bind. rewrite add_frequency_run.
  destruct (Np.contains (omega (_data self)) w) eqn:Hc; simpl.
  - repeat split; try assumption. rewrite add_frequency_run. now rewrite Hc.
  - repeat split.
    + apply sort_contains_new.
    + unfold wave_directions; simpl. rewrite !map_map. simpl.
      apply (expand_omega_directions (_data self)).
    + rewrite add_frequency_run. simpl. now rewrite sort_contains_new.
Qed.

(** X9.  [add_direction] returns; afterwards the heading is a label of
    the heading axis, which is the axis as it was when it held the
    heading and otherwise the sorted axis with the heading inserted; a
    second call with the same heading changes nothing. *)
Theorem add_direction_idempotent (h : R) (self : Rao) :
  outcome (add_direction h) self = Ok tt
  /\ Np.contains (wave_directions (_data (state_after (add_direction h) self))) h = true
  /\ wave_directions (_data (state_after (add_direction h) self))
     = (if Np.contains (wave_directions (_data self)) h then wave_directions (_data self)
        else Np.sort (wave_directions (_data self) ++ [h]))
  /\ (add_direction h ;; add_direction h) self = add_direction h self.
Proof.
  unfold outcome, state_after, bind. rewrite add_direction_run.
  destruct (Np.contains (wave_directions (_data self)) h) eqn:Hc; simpl.
  - repeat split; try assumption. rewrite add_direction_run. now rewrite Hc.
  - assert (Hw : wave_directions
                   (regrid_direction_data (Np.sort (wave_directions (_data self) ++ [h]))
                                          (_data self))
                 = Np.sort (wave_directions (_data self) ++ [h]))
      by apply regrid_direction_headings.
    repeat split.
    + rewrite Hw. apply sort_contains_new.
    + exact Hw.
    + rewrite add_direction_run. simpl. rewrite Hw. now rewrite sort_contains_new.
Qed.

(** ** Evaluation anywhere on a dense grid *)

Lemma dense_regrid_omega (new_omega : list R) (d : Dataset) :
  dense (regrid_omega_data new_omega d).
Proof.
  unfold dense, regrid_omega_data, _complex_unit_delete, _complex_unit_to_phase,
    Xr.interp_omega, _complex_unit_add.
  simpl. rewrite !map_map. simpl.
  apply Forall_forall. intros s Hs. apply in_map_iff in Hs.
  destruct Hs as [t [<- _]]. simpl. unfold Xr.interp_row.
  now rewrite !length_map.
Qed.

(** The shape one slice has on a grid with [n] frequencies, the channel
    included when the slice holds one. *)
Lemma lerp_slice_shape (n : nat) (x0 : R) (s0 : Slice) (x1 : R) (s1 : Slice) (x : R) :
  (length (amplitude s0) = n /\ length (phase s0) = n
   /\ forall cu, complex_unit s0 = Some cu -> length cu = n) ->
  (length (amplitude s1) = n /\ length (phase s1) = n
   /\ forall cu, complex_unit s1 = Some cu -> length cu = n) ->
  length (amplitude (Xr.lerp_slice x0 s0 x1 s1 x)) = n
  /\ length (phase (Xr.lerp_slice x0 s0 x1 s1 x)) = n
  /\ forall cu, complex_unit (Xr.lerp_slice x0 s0 x1 s1 x) = Some cu -> length cu = n.
Proof.
  intros [Ha0 [Hp0 Hc0]] [Ha1 [Hp1 Hc1]]. simpl. unfold Xr.lerp_row.
  rewrite !length_map, !length_combine, Ha0, Ha1, Hp0, Hp1, Nat.min_id.
  split; [reflexivity |]. split; [reflexivity |].
  intros cu. destruct (complex_unit s0) as [c0 |]; [| discriminate].
  destruct (complex_unit s1) as [c1 |]; [| discriminate].
  intros Hcu. inversion Hcu; subst.
  rewrite length_map, length_combine, (Hc0 c0 eq_refl), (Hc1 c1 eq_refl).
  apply Nat.min_id.
Qed.

Lemma expand_direction_omega (d : Dataset) :
  omega (Helpers.expand_direction_to_full_range d) = omega d.
Proof.
  unfold Helpers.expand_direction_to_full_range.
  destruct (Xr.sel_wave_direction d (Np.min (wave_directions d))); [| reflexivity].
  now destruct (Xr.sel_wave_direction d (Np.max (wave_directions d))).
Qed.

Lemma expand_direction_rows (d : Dataset) (s : Slice) :
  In s (slices (Helpers.expand_direction_to_full_range d)) ->
  exists t, In t (slices d) /\ amplitude s = amplitude t /\ phase s = phase t.
Proof.
  unfold Helpers.expand_direction_to_full_range.
  destruct (Xr.sel_wave_direction d (Np.min (wave_directions d))) as [lowest |] eqn:Hlo;
    [| intros Hs; now exists s].
  destruct (Xr.sel_wave_direction d (Np.max (wave_directions d))) as [highest |] eqn:Hhi;
    [| intros Hs; now exists s].
  apply sel_wave_direction_In in Hlo, Hhi. destruct Hlo as [Hlo _], Hhi as [Hhi _].
  simpl. intros Hs. apply in_app_or in Hs. destruct Hs as [Hs | Hs].
  - destruct (Np.contains (wave_directions d) (Np.max (wave_directions d) - 360));
      [contradiction |].
    destruct Hs as [<- | []]. now exists highest.
  - apply in_app_or in Hs. destruct Hs as [Hs | Hs]; [now exists s |].
    destruct (Np.contains (wave_directions d) (Np.min (wave_directions d) + 360));
      [contradiction |].
    destruct Hs as [<- | []]. now exists lowest.
Qed.

Lemma dense_regrid_direction (new_headings : list R) (d : Dataset) :
  dense d -> dense (regrid_direction_data new_headings d).
Proof.
  intros Hd. unfold regrid_direction_data.
  remember (_complex_unit_add (Helpers.expand_direction_to_full_range d)) as X eqn:HX.
  set (n := length (omega d)).
  assert (Hom : omega X = omega d) by (subst X; simpl; apply expand_direction_omega).
  assert (HX' : Forall (fun s => length (amplitude s) = n /\ length (phase s) = n
                                 /\ forall cu, complex_unit s = Some cu -> length cu = n)
                       (slices X)).
  { subst X. simpl. apply Forall_forall. intros s Hs. apply in_map_iff in Hs.
    destruct Hs as [t [<- Ht]]. simpl.
    destruct (expand_direction_rows d t Ht) as [u [Hu [-> ->]]].
    unfold dense in Hd. rewrite Forall_forall in Hd. destruct (Hd u Hu) as [Ha Hp].
    repeat split; try assumption.
    intros cu Hcu. inversion Hcu; subst. now rewrite length_map. }
  unfold dense, _complex_unit_delete, _complex_unit_to_phase, Xr.interp_wave_direction.
  simpl. rewrite !map_map. simpl. rewrite Hom.
  apply Forall_forall. intros s Hs. apply in_map_iff in Hs.
  destruct Hs as [h [<- _]]. simpl.
  assert (Hshape : let r := match Xr.interp1d Xr.lerp_slice (wave_directions X) (slices X) h with
                            | Some s => s
                            | None => Xr.nan_slice X h
                            end in
                   length (amplitude r) = n /\ length (phase r) = n
                   /\ forall cu, complex_unit r = Some cu -> length cu = n).
  { destruct (Xr.interp1d Xr.lerp_slice (wave_directions X) (slices X) h) as [v |] eqn:Hv.
    - apply (interp1d_keeps Slice Xr.lerp_slice _
               (fun x0 y0 x1 y1 x _ => lerp_slice_shape n x0 y0 x1 y1 x)
               (wave_directions X) (slices X) h v HX' Hv).
    - simpl. rewrite Hom. fold n. rewrite !repeat_length.
      split; [reflexivity |]. split; [reflexivity |].
      intros cu. destruct (slices X) as [| s0 rest]; [discriminate |].
      destruct (complex_unit s0); [| discriminate].
      simpl. intros Hcu. inversion Hcu. apply repeat_length. }
  simpl in Hshape. destruct Hshape as [Ha [Hp Hc]].
  split; [exact Ha |].
  destruct (complex_unit _) as [cu |] eqn:Hcu; [| exact Hp].
  rewrite length_map. now apply Hc.
Qed.

Lemma contains_sel (d : Dataset) (h : R) :
  Np.contains (wave_directions d) h = true ->
  exists s, Xr.sel_wave_direction d h = Some s /\ In s (slices d).
Proof.
  intros Hc. apply contains_In in Hc.
  destruct (find_direction_app (slices d) [] h Hc) as [s [Hf _]].
  exists s. split; [exact Hf |]. now apply find_some in Hf.
Qed.

Lemma contains_index (l : list R) (x : R) :
  Np.contains l x = true ->
  exists j, Xr.index_of x l = Some j /\ (j < length l)%nat.
Proof.
  induction l as [| y l IH]; simpl; [discriminate |].
  destruct (Np.eqb y x); simpl.
  - intros _. exists 0%nat. split; [reflexivity | lia].
  - intros Hc. destruct (IH Hc) as [j [Hj Hlt]]. exists (S j).
    rewrite Hj. split; [reflexivity | lia].
Qed.

Lemma add_direction_pair (h : R) (self : Rao) :
  add_direction h self = (Ok tt, snd (add_direction h self)).
Proof.
  rewrite add_direction_run.
  now destruct (Np.contains (wave_directions (_data self)) h).
Qed.

Lemma add_frequency_pair (w : R) (self : Rao) :
  add_frequency w self = (Ok tt, snd (add_frequency w self)).
Proof.
  rewrite add_frequency_run. now destruct (Np.contains (omega (_data self)) w).
Qed.

(** What the two insertions of [get_value] leave: a dense grid that has
    the heading and the frequency as labels. *)
Lemma insertions_post (w h : R) (self : Rao) :
  dense (_data self) ->
  let s2 := snd (add_frequency w (snd (add_direction h self))) in
  dense (_data s2)
  /\ Np.contains (wave_directions (_data s2)) h = true
  /\ Np.contains (omega (_data s2)) w = true
  /\ mode s2 = mode self.
Proof.
  intros Hd.
  assert (H1 : dense (_data (snd (add_direction h self)))
               /\ Np.contains (wave_directions (_data (snd (add_direction h self)))) h = true
               /\ mode (snd (add_direction h self)) = mode self).
  { rewrite add_direction_run.
    destruct (Np.contains (wave_directions (_data self)) h) eqn:Hc; simpl.
    - now repeat split.
    - split; [now apply dense_regrid_direction |]. split; [| reflexivity].
      rewrite regrid_direction_headings. apply sort_contains_new. }
  destruct H1 as [Hd1 [Hc1 Hm1]].
  set (s1 := snd (add_direction h self)) in *.
  simpl. rewrite add_frequency_run.
  destruct (Np.contains (omega (_data s1)) w) eqn:Hc; simpl.
  - now repeat split.
  - split; [apply dense_regrid_omega |]. split; [| split].
    + unfold wave_directions in *; simpl. rewrite !map_map. simpl.
      change (map (fun s => wave_direction s)
                  (slices (Helpers.expand_omega_dim_const (_data s1)
                             (Np.sort (omega (_data s1) ++ [w])))))
        with (wave_directions (Helpers.expand_omega_dim_const (_data s1)
                                 (Np.sort (omega (_data s1) ++ [w])))).
      rewrite expand_omega_directions. exact Hc1.
    + apply sort_contains_new.
    + exact Hm1.
Qed.

Lemma get_value_after_insertions (w h : R) (self : Rao) :
  get_value w h self
  = get_value w h (snd (add_frequency w (snd (add_direction h self)))).
Proof.
  set (s2 := snd (add_frequency w (snd (add_direction h self)))).
  assert (Hh : Np.contains (wave_directions (_data s2)) h = true
               /\ Np.contains (omega (_data s2)) w = true).
  { subst s2. rewrite add_frequency_run.
    set (s1 := snd (add_direction h self)).
    assert (Hc1 : Np.contains (wave_directions (_data s1)) h = true).
    { subst s1. rewrite add_direction_run.
      destruct (Np.contains (wave_directions (_data self)) h) eqn:Hc; simpl;
        [exact Hc |].
      rewrite regrid_direction_headings. apply sort_contains_new. }
    destruct (Np.contains (omega (_data s1)) w) eqn:Hc; simpl.
    - now split.
    - split; [| apply sort_contains_new].
      unfold wave_directions in *; simpl. rewrite !map_map. simpl.
      change (map (fun s => wave_direction s)
                  (slices (Helpers.expand_omega_dim_const (_data s1)
                             (Np.sort (omega (_data s1) ++ [w])))))
        with (wave_directions (Helpers.expand_omega_dim_const (_data s1)
                                 (Np.sort (omega (_data s1) ++ [w])))).
      rewrite expand_omega_directions. exact Hc1. }
  destruct Hh as [Hh Hw].
  unfold get_value. unfold bind at 1. rewrite (add_direction_pair h self).
  unfold bind at 1. rewrite (add_frequency_pair w (snd (add_direction h self))).
  fold s2. symmetry.
  unfold bind at 1. rewrite (add_direction_run h s2), Hh.
  unfold bind at 1. rewrite (add_frequency_run w s2), Hw.
  reflexivity.
Qed.

(** X10.  On a dense grid [get_value] returns for every frequency and
    every heading: it never raises.  Afterwards the heading and the
    frequency are labels of the axes, the grid is dense again, and the
    mode is as before. *)
Theorem get_value_total (w h : R) (self : Rao) :
  dense (_data self) ->
  exists v : ccell,
    outcome (get_value w h) self = Ok v
    /\ Np.contains (wave_directions (_data (state_after (get_value w h) self))) h = true
    /\ Np.contains (omega (_data (state_after (get_value w h) self))) w = true
    /\ dense (_data (state_after (get_value w h) self))
    /\ mode (state_after (get_value w h) self) = mode self.
Proof.
  intros Hd. unfold outcome, state_after. rewrite get_value_after_insertions.
  destruct (insertions_post w h self Hd) as [Hd2 [Hh [Hw Hm]]].
  set (s2 := snd (add_frequency w (snd (add_direction h self)))) in *.
  destruct (contains_sel _ _ Hh) as [s [Hsel Hin]].
  destruct (contains_index _ _ Hw) as [j [Hidx Hj]].
  unfold dense in Hd2. pose proof Hd2 as Hall. rewrite Forall_forall in Hall.
  destruct (Hall s Hin) as [Hla Hlp].
  destruct (nth_error (amplitude s) j) as [a |] eqn:Ha;
    [| apply nth_error_None in Ha; lia].
  destruct (nth_error (phase s) j) as [p |] eqn:Hp;
    [| apply nth_error_None in Hp; lia].
  rewrite (get_value_run s2 w h s j a p Hsel Hidx Ha Hp). simpl.
  exists (cmul (Np.exp_1j p) a). split; [reflexivity |].
  unfold wave_directions in *; simpl. rewrite map_map. simpl.
  split; [exact Hh |]. split; [exact Hw |]. split; [| exact Hm].
  unfold dense; simpl. apply Forall_forall. intros t Ht. apply in_map_iff in Ht.
  destruct Ht as [u [<- Hu]]. simpl. now apply Hall.
Qed.

Lemma init_dense : dense (_data __init__).
Proof. unfold dense; simpl. repeat constructor. Qed.

(** The fresh grid at the frequency 1 and the heading 90, neither of
    them a label of the grid. *)
Lemma get_value_total_witness :
  dense (_data __init__)
  /\ exists v : ccell, outcome (get_value 1 90) __init__ = Ok v.
Proof.
  split; [exact init_dense |].
  destruct (get_value_total 1 90 __init__ init_dense) as [v [Hv _]].
  now exists v.
Defined.

(** ** The shape of the grid after symmetry expansion *)

(** A mirror heading always lies in [0, 360). *)
Lemma mirror_in_range (h : R) : 0 <= mirror h < 360.
Proof.
  unfold mirror, Np.mod_.
  destruct (base_Int_part (- h / 360)) as [Hle Hgt]. lra.
Qed.

Lemma additions_source (opposite : bool) (base : list Slice) (todo : list R) (s' : Slice) :
  In s' (additions opposite base todo) ->
  exists s, In s base
            /\ s' = mirrored opposite (mirror (wave_direction s)) s
            /\ Np.contains (map wave_direction base) (wave_direction s') = false.
Proof.
  unfold additions. rewrite in_flat_map. intros [h [_ Hs]].
  destruct (Np.contains (map wave_direction base) (mirror h)) eqn:Hc; [contradiction |].
  destruct (find (fun s => Np.eqb (wave_direction s) h) base) as [sym |] eqn:Hf;
    [| contradiction].
  destruct Hs as [<- | []]. apply find_some in Hf. destruct Hf as [Hin He].
  apply eqb_true in He. subst h. exists sym. now repeat split.
Qed.



(** X12.  On a grid with one of the six modes in which the mirror of
    every heading is a heading, [add_symmetry_xz] adds no column: it
    only sorts the grid by heading. *)
Theorem add_symmetry_xz_closed_grid (self : Rao) (m : MotionMode) :
  mode self = ModeOf m ->
  (forall h, In h (wave_directions (_data self)) ->
             In (mirror h) (wave_directions (_data self))) ->
  add_symmetry_xz self = (Ok tt, mkRao (Xr.sortby_wave_direction (_data self)) (mode self)).
Proof.
  intros Hm Hclosed. rewrite (add_symmetry_xz_known_mode self m Hm).
  unfold symmetry_body, bind, get_data; simpl.
  rewrite symmetry_loop_noop; [reflexivity |].
  intros h Hh. apply contains_In. now apply Hclosed.
Qed.

(** The fresh grid with the mode HEAVE: 0 and 180 are their own
    mirrors. *)
Lemma add_symmetry_xz_closed_grid_witness :
  (forall h, In h (wave_directions (_data grid_heave_0_180)) ->
             In (mirror h) (wave_directions (_data grid_heave_0_180)))
  /\ add_symmetry_xz grid_heave_0_180
     = (Ok tt, mkRao (Xr.sortby_wave_direction (_data grid_heave_0_180))
                     (mode grid_heave_0_180)).
Proof.
  assert (Hc : forall h, In h (wave_directions (_data grid_heave_0_180)) ->
                         In (mirror h) (wave_directions (_data grid_heave_0_180))).
  { unfold wave_directions; simpl. intros h [<- | [<- | []]].
    - rewrite mirror_zero. now left.
    - rewrite mirror_pos by lra. right. left. lra. }
  split; [exact Hc |].
  exact (add_symmetry_xz_closed_grid grid_heave_0_180 HEAVE eq_refl Hc).
Defined.

(** ** Regridding keeps the amplitudes at frequencies of the axis *)

Lemma ascending_strict {A : Type} (key : A -> R) (l : list A) :
  ascending key l -> NoDup (map key l) ->
  StronglySorted (fun a b => key a < key b) l.
Proof.
  unfold ascending. induction l as [| a l IH]; intros Hs Hnd; [constructor |].
  inversion Hs as [| ? ? Hl Ha]; subst. simpl in Hnd.
  inversion Hnd as [| ? ? Hnotin Hnd']; subst.
  constructor; [now apply IH |].
  rewrite Forall_forall in Ha |- *. intros b Hb. specialize (Ha b Hb).
  destruct Ha as [Hlt | Heq]; [exact Hlt |].
  exfalso. apply Hnotin. rewrite Heq. now apply in_map.
Qed.

(** On knots in strictly ascending order that all hold numbers, the
    interpolation at a knot is the value of the knot. *)
Lemma interp_sorted_at_knot :
  forall (S : list (R * cell)) (x a : R),
    StronglySorted (fun k k' => fst k < fst k') S ->
    Forall (fun k => is_number (snd k)) S ->
    In (x, Some a) S -> (2 <= length S)%nat ->
    Xr.interp_sorted Xr.lerp_cell S x = Some (Some a).
Proof.
  induction S as [| [x0 y0] rest IH]; intros x a Hs Hnum Hin Hlen; [contradiction |].
  destruct rest as [| [x1 y1] rest']; [simpl in Hlen; lia |].
  inversion Hs as [| ? ? Hrest H0]; subst.
  inversion H0 as [| ? ? H01 H0rest]; subst. simpl in H01.
  inversion Hnum as [| ? ? Hy0 Hnum']; subst.
  inversion Hnum' as [| ? ? Hy1 _]; subst. simpl in Hy0, Hy1.
  destruct y0 as [c0 |]; [| contradiction]. destruct y1 as [c1 |]; [| contradiction].
  change (Xr.interp_sorted Xr.lerp_cell ((x0, Some c0) :: (x1, Some c1) :: rest') x)
    with (if Rle_dec x x1 then Some (Xr.lerp_cell x0 (Some c0) x1 (Some c1) x)
          else Xr.interp_sorted Xr.lerp_cell ((x1, Some c1) :: rest') x).
  unfold Xr.lerp_cell. destruct (Req_dec_T x0 x1) as [He | Hne]; [lra |].
  destruct Hin as [Hin | [Hin | Hin]].
  - inversion Hin; subst. destruct (Rle_dec x x1); [| lra].
    do 2 f_equal. field. lra.
  - inversion Hin; subst. destruct (Rle_dec x x); [| lra].
    do 2 f_equal. field. lra.
  - inversion Hrest as [| ? ? _ H1rest]; subst.
    rewrite Forall_forall in H1rest. pose proof (H1rest _ Hin) as Hx. simpl in Hx.
    destruct (Rle_dec x x1); [lra |].
    apply IH; try assumption.
    + now right.
    + destruct rest'; [contradiction | simpl; lia].
Qed.

Lemma map_fst_combine_eq {A B : Type} :
  forall (l : list A) (l' : list B), length l' = length l -> map fst (combine l l') = l.
Proof.
  induction l as [| a l IH]; intros [| b l'] Hlen; simpl in *; try discriminate;
    try reflexivity.
  f_equal. apply IH. lia.
Qed.

Lemma interp1d_at_knot (xs : list R) (row : list cell) (x a : R) :
  NoDup xs -> length row = length xs -> (2 <= length xs)%nat ->
  Forall is_number row ->
  In (x, Some a) (combine xs row) ->
  Xr.interp1d Xr.lerp_cell xs row x = Some (Some a).
Proof.
  intros Hnd Hlen H2 Hnum Hin. unfold Xr.interp1d.
  pose proof (sort_by_perm fst (combine xs row)) as Hperm.
  assert (Hstrict : StronglySorted (fun k k' => fst k < fst k')
                                   (Np.sort_by fst (combine xs row))).
  { apply ascending_strict; [apply sort_by_ascending |].
    apply (Permutation_NoDup (l := map fst (combine xs row))).
    - apply Permutation_map. now symmetry.
    - now rewrite map_fst_combine_eq. }
  assert (Hnum' : Forall (fun k => is_number (snd k)) (Np.sort_by fst (combine xs row))).
  { apply Forall_forall. intros [kx ky] Hk. apply sort_by_In in Hk.
    apply in_combine_r in Hk. rewrite Forall_forall in Hnum. now apply Hnum. }
  assert (Hin' : In (x, Some a) (Np.sort_by fst (combine xs row))) by now apply sort_by_In.
  assert (Hlen' : (2 <= length (Np.sort_by fst (combine xs row)))%nat).
  { rewrite (Permutation_length Hperm), length_combine. lia. }
  destruct (Np.sort_by fst (combine xs row)) as [| [x0 y0] rest] eqn:HS;
    [contradiction |].
  destruct (Rlt_dec x x0) as [Hlt | _].
  - exfalso. destruct Hin' as [He | Hin'']; [inversion He; lra |].
    inversion Hstrict as [| ? ? _ H0]; subst.
    rewrite Forall_forall in H0. specialize (H0 _ Hin''). simpl in H0. lra.
  - now apply interp_sorted_at_knot.
Qed.

Lemma min_le_all (l : list R) (x : R) : In x l -> Np.min l <= x.
Proof.
  unfold Np.min. revert x. generalize (hd 0 l).
  induction l as [| a l IH]; intros d x; simpl; [tauto |].
  intros [<- | Hx]; [apply Rmin_l |].
  etransitivity; [apply Rmin_r | now apply IH].
Qed.

Lemma max_ge_all (l : list R) (x : R) : In x l -> x <= Np.max l.
Proof.
  unfold Np.max. revert x. generalize (hd 0 l).
  induction l as [| a l IH]; intros d x; simpl; [tauto |].
  intros [<- | Hx]; [apply Rmax_l |].
  etransitivity; [now apply IH | apply Rmax_r].
Qed.

Lemma index_of_lt (l : list R) (x : R) (j : nat) :
  Xr.index_of x l = Some j -> (j < length l)%nat.
Proof.
  revert j. induction l as [| y l IH]; intros j; simpl; [discriminate |].
  destruct (Np.eqb y x); [intros Hj; inversion Hj; lia |].
  destruct (Xr.index_of x l) as [k |]; simpl; [| discriminate].
  intros Hj. inversion Hj. specialize (IH k eq_refl). lia.
Qed.

Lemma in_combine_app {A B : Type} (p : A * B) :
  forall (l : list A) (l' : list B) (r : list A) (r' : list B),
    length l' = length l -> In p (combine l l') -> In p (combine (l ++ r) (l' ++ r')).
Proof.
  induction l as [| a l IH]; intros [| b l'] r r' Hlen; simpl in *; try discriminate;
    [tauto |].
  intros [<- | Hin]; [now left | right]. apply IH; [lia | exact Hin].
Qed.

Lemma nth_number (i : nat) (row : list cell) :
  (i < length row)%nat -> Forall is_number row -> is_number (nth i row None).
Proof.
  intros Hi Hrow. rewrite Forall_forall in Hrow. apply Hrow. now apply nth_In.
Qed.

(** The expanded axis and an expanded row: the knots of the row are
    still knots, the axis has no repeated label, the row no NaN. *)
Lemma expand_lists (lo hi : bool) (xl xh : R) (om : list R) (row : list cell)
      (ilo ihi : nat) :
  NoDup om -> length row = length om ->
  (ilo < length om)%nat -> (ihi < length om)%nat ->
  (lo = true -> xl < Np.min om) -> (hi = true -> Np.max om < xh) ->
  Forall is_number row ->
  let omE := (if lo then [xl] else []) ++ om ++ (if hi then [xh] else []) in
  let rE := Helpers.expand_row lo hi ilo ihi row in
  NoDup omE /\ length rE = length omE /\ (length om <= length omE)%nat
  /\ Forall is_number rE
  /\ forall p, In p (combine om row) -> In p (combine omE rE).
Proof.
  intros Hnd Hlen Hilo Hihi Hlo Hhi Hnum. simpl.
  assert (Hmid : NoDup (om ++ (if hi then [xh] else []))).
  { destruct hi; [| now rewrite app_nil_r].
    apply NoDup_app; [exact Hnd | repeat constructor; intros [] |].
    intros a Ha [Heq | []]. pose proof (max_ge_all om a Ha). specialize (Hhi eq_refl). lra. }
  assert (Hmin_max : om <> [] -> Np.min om <= Np.max om).
  { destruct om as [| a om']; [congruence |]. intros _.
    etransitivity; [apply (min_le_all (a :: om') a) | apply (max_ge_all (a :: om') a)];
      now left. }
  unfold Helpers.expand_row. split; [| split; [| split; [| split]]].
  - destruct lo; [| exact Hmid]. simpl. constructor; [| exact Hmid].
    specialize (Hlo eq_refl). intros Hin. apply in_app_or in Hin.
    destruct Hin as [Hin | Hin].
    + pose proof (min_le_all om xl Hin). lra.
    + destruct hi; [| contradiction]. destruct Hin as [Heq | []].
      specialize (Hhi eq_refl).
      assert (om <> []) by (intros ->; simpl in Hilo; lia).
      specialize (Hmin_max H). lra.
  - unfold cell in *. destruct lo, hi; simpl; rewrite ?length_app; simpl; lia.
  - rewrite !length_app. lia.
  - apply Forall_app. split.
    + destruct lo; constructor; [| constructor]. apply nth_number; [lia | exact Hnum].
    + apply Forall_app. split; [exact Hnum |].
      destruct hi; constructor; [| constructor]. apply nth_number; [lia | exact Hnum].
  - intros p Hp. destruct lo; simpl; [right |]; now apply in_combine_app.
Qed.

Lemma expand_omega_shape (d : Dataset) (new_omega : list R) :
  NoDup (omega d) -> dense d ->
  Forall (fun s => Forall is_number (amplitude s)) (slices d) ->
  exists eS : Slice -> Slice,
    slices (Helpers.expand_omega_dim_const d new_omega) = map eS (slices d)
    /\ NoDup (omega (Helpers.expand_omega_dim_const d new_omega))
    /\ (length (omega d) <= length (omega (Helpers.expand_omega_dim_const d new_omega)))%nat
    /\ forall t, In t (slices d) ->
         length (amplitude (eS t))
         = length (omega (Helpers.expand_omega_dim_const d new_omega))
         /\ Forall is_number (amplitude (eS t))
         /\ forall p, In p (combine (omega d) (amplitude t)) ->
                      In p (combine (omega (Helpers.expand_omega_dim_const d new_omega))
                                    (amplitude (eS t))).
Proof.
  intros Hnd Hd Hnum. unfold dense in Hd. rewrite Forall_forall in Hd, Hnum.
  assert (Hid : exists eS : Slice -> Slice,
             slices d = map eS (slices d) /\ NoDup (omega d)
             /\ (length (omega d) <= length (omega d))%nat
             /\ forall t, In t (slices d) ->
                  length (amplitude (eS t)) = length (omega d)
                  /\ Forall is_number (amplitude (eS t))
                  /\ forall p, In p (combine (omega d) (amplitude t)) ->
                               In p (combine (omega d) (amplitude (eS t)))).
  { exists (fun s => s). rewrite map_id.
    split; [reflexivity |]. split; [exact Hnd |]. split; [lia |].
    intros t Ht. split; [now apply Hd |]. split; [now apply Hnum | auto]. }
  unfold Helpers.expand_omega_dim_const.
  destruct new_omega as [| w0 ws]; [exact Hid |].
  destruct (Xr.index_of (Np.min (omega d)) (omega d)) as [ilo |] eqn:Hilo; [| exact Hid].
  destruct (Xr.index_of (Np.max (omega d)) (omega d)) as [ihi |] eqn:Hihi; [| exact Hid].
  apply index_of_lt in Hilo, Hihi. clear Hid.
  set (lo := if Rlt_dec (Np.min (w0 :: ws)) (Np.min (omega d)) then true else false).
  set (hi := if Rlt_dec (Np.max (omega d)) (Np.max (w0 :: ws)) then true else false).
  assert (Hlo : lo = true -> Np.min (w0 :: ws) < Np.min (omega d)).
  { subst lo. now destruct (Rlt_dec (Np.min (w0 :: ws)) (Np.min (omega d))). }
  assert (Hhi : hi = true -> Np.max (omega d) < Np.max (w0 :: ws)).
  { subst hi. now destruct (Rlt_dec (Np.max (omega d)) (Np.max (w0 :: ws))). }
  eexists. split; [simpl; reflexivity |]. simpl omega.
  assert (Hrow : forall t, In t (slices d) ->
             NoDup ((if lo then [Np.min (w0 :: ws)] else []) ++ omega d
                    ++ (if hi then [Np.max (w0 :: ws)] else []))
             /\ length (Helpers.expand_row lo hi ilo ihi (amplitude t))
                = length ((if lo then [Np.min (w0 :: ws)] else []) ++ omega d
                          ++ (if hi then [Np.max (w0 :: ws)] else []))
             /\ (length (omega d)
                 <= length ((if lo then [Np.min (w0 :: ws)] else []) ++ omega d
                            ++ (if hi then [Np.max (w0 :: ws)] else [])))%nat
             /\ Forall is_number (Helpers.expand_row lo hi ilo ihi (amplitude t))
             /\ forall p, In p (combine (omega d) (amplitude t)) ->
                          In p (combine ((if lo then [Np.min (w0 :: ws)] else []) ++ omega d
                                         ++ (if hi then [Np.max (w0 :: ws)] else []))
                                        (Helpers.expand_row lo hi ilo ihi (amplitude t)))).
  { intros t Ht.
    apply (expand_lists lo hi (Np.min (w0 :: ws)) (Np.max (w0 :: ws)) (omega d)
             (amplitude t) ilo ihi); try assumption.
    - now apply Hd.
    - now apply Hnum. }
  split; [| split].
  - destruct (slices d) as [| t0 rest] eqn:Hsl.
    + (* no slice: the axis alone *)
      assert (Hrep : length (repeat (Some 0) (length (omega d))) = length (omega d))
        by apply repeat_length.
      assert (Hrn : Forall is_number (repeat (Some 0) (length (omega d)))).
      { apply Forall_forall. intros c Hc. apply repeat_spec in Hc. now subst. }
      exact (proj1 (expand_lists lo hi (Np.min (w0 :: ws)) (Np.max (w0 :: ws)) (omega d)
                      (repeat (Some 0) (length (omega d))) ilo ihi
                      Hnd Hrep Hilo Hihi Hlo Hhi Hrn)).
    + apply (Hrow t0). now left.
  - rewrite !length_app. lia.
  - intros t Ht. simpl. destruct (Hrow t Ht) as [_ [H1 [_ [H2 H3]]]]. now repeat split.
Qed.

Lemma nth_error_combine {A B : Type} :
  forall (l : list A) (l' : list B) (j : nat) (x : A) (y : B),
    nth_error l j = Some x -> nth_error l' j = Some y ->
    nth_error (combine l l') j = Some (x, y).
Proof.
  induction l as [| a l IH]; intros [| b l'] [| j] x y Hx Hy; simpl in *;
    try discriminate.
  - now inversion Hx; inversion Hy.
  - now apply IH.
Qed.

Lemma regrid_omega_data_keeps (targets : list R) (d : Dataset) (w : R)
      (i j j' : nat) (a : R) :
  NoDup (omega d) ->
  (2 <= length (omega d))%nat ->
  dense d ->
  Forall (fun s => Forall is_number (amplitude s)) (slices d) ->
  nth_error (omega d) j = Some w ->
  nth_error targets j' = Some w ->
  cell_at amplitude d i j = Some (Some a) ->
  cell_at amplitude (regrid_omega_data targets d) i j' = Some (Some a).
Proof.
  intros Hnd H2 Hd Hnum Hj Hj' Hcell.
  destruct (expand_omega_shape d targets Hnd Hd Hnum)
    as [eS [Hsl [HndE [HlenE HeS]]]].
  unfold cell_at in *. unfold regrid_omega_data. simpl.
  rewrite !map_map, Hsl, !nth_error_map. simpl.
  destruct (nth_error (slices d) i) as [t |] eqn:Ht; [| discriminate].
  simpl. unfold Xr.interp_row. rewrite nth_error_map, Hj'. simpl.
  destruct (HeS t (nth_error_In _ _ Ht)) as [Hlen [Hnums Hin]].
  rewrite (interp1d_at_knot _ _ w a); try assumption; try reflexivity.
  - lia.
  - apply Hin. apply (nth_error_In _ j). now apply nth_error_combine.
Qed.

(** X13.  On a dense grid whose frequency axis has at least two labels
    and none twice, and whose amplitudes are all numbers, [regrid_omega]
    keeps the amplitude at every target that is a label of the axis: the
    amplitude the new grid has at that target is the amplitude the grid
    had at that frequency. *)
Theorem regrid_omega_keeps_labels (targets : list R) (self : Rao) (w : R)
        (i j j' : nat) (a : R) :
  NoDup (omega (_data self)) ->
  (2 <= length (omega (_data self)))%nat ->
  dense (_data self) ->
  Forall (fun s => Forall is_number (amplitude s)) (slices (_data self)) ->
  nth_error (omega (_data self)) j = Some w ->
  nth_error targets j' = Some w ->
  cell_at amplitude (_data self) i j = Some (Some a) ->
  cell_at amplitude (_data (state_after (regrid_omega targets) self)) i j' = Some (Some a).
Proof.
  intros Hnd H2 Hd Hnum Hj Hj' Hcell.
  unfold state_after. rewrite regrid_omega_run. simpl.
  now apply (regrid_omega_data_keeps targets (_data self) w i j j' a).
Qed.

(** The fresh grid regridded to the frequencies 0, 2 and 4: the
    amplitude at the frequency 4 is kept. *)
Lemma regrid_omega_keeps_labels_witness :
  NoDup (omega (_data __init__))
  /\ dense (_data __init__)
  /\ cell_at amplitude (_data (state_after (regrid_omega [0; 2; 4]) __init__)) 1 2
     = Some (Some 0).
Proof.
  assert (Hnd : NoDup (omega (_data __init__))).
  { simpl. constructor; [| constructor; [| constructor]].
    - intros [H | []]. lra.
    - intros []. }
  split; [exact Hnd |]. split; [exact init_dense |].
  apply (regrid_omega_keeps_labels [0; 2; 4] __init__ 4 1 1 2 0 Hnd).
  - simpl. lia.
  - exact init_dense.
  - simpl. repeat constructor.
  - reflexivity.
  - reflexivity.
  - reflexivity.
Defined.

(** X14.  On such a grid [add_frequency] changes no amplitude at the
    frequencies the axis already had: each of them is a label of the new
    axis, and the amplitude there is the amplitude it had. *)
Theorem add_frequency_keeps_amplitudes (w : R) (self : Rao) (w0 : R) (i j : nat) (a : R) :
  NoDup (omega (_data self)) ->
  (2 <= length (omega (_data self)))%nat ->
  dense (_data self) ->
  Forall (fun s => Forall is_number (amplitude s)) (slices (_data self)) ->
  nth_error (omega (_data self)) j = Some w0 ->
  cell_at amplitude (_data self) i j = Some (Some a) ->
  exists j' : nat,
    nth_error (omega (_data (state_after (add_frequency w) self))) j' = Some w0
    /\ cell_at amplitude (_data (state_after (add_frequency w) self)) i j' = Some (Some a).
Proof.
  intros Hnd H2 Hd Hnum Hj Hcell. unfold state_after. rewrite add_frequency_run.
  destruct (Np.contains (omega (_data self)) w); simpl.
  - exists j. now split.
  - assert (Hin : In w0 (Np.sort (omega (_data self) ++ [w]))).
    { unfold Np.sort. apply sort_by_In, in_or_app. left. now apply (nth_error_In _ j). }
    apply In_nth_error in Hin. destruct Hin as [j' Hj'].
    exists j'. split; [exact Hj' |].
    now apply (regrid_omega_data_keeps _ (_data self) w0 i j j' a).
Qed.

(** The fresh grid with the frequency 2 inserted: the amplitude at the
    frequency 4 is still there. *)
Lemma add_frequency_keeps_amplitudes_witness :
  NoDup (omega (_data __init__))
  /\ dense (_data __init__)
  /\ exists j' : nat,
      nth_error (omega (_data (state_after (add_frequency 2) __init__))) j' = Some 4
      /\ cell_at amplitude (_data (state_after (add_frequency 2) __init__)) 1 j'
         = Some (Some 0).
Proof.
  assert (Hnd : NoDup (omega (_data __init__))).
  { simpl. constructor; [| constructor; [| constructor]].
    - intros [H | []]. lra.
    - intros []. }
  split; [exact Hnd |]. split; [exact init_dense |].
  apply (add_frequency_keeps_amplitudes 2 __init__ 4 1 1 0 Hnd).
  - simpl. lia.
  - exact init_dense.
  - simpl. repeat constructor.
  - reflexivity.
  - reflexivity.
Defined.
